(** * File-pool usage statistics: a model of
      [pkg/builder/file_pool_stats_build_executor.go]

    The Go file decorates a [BuildExecutor], the [FilePool] handed to it and
    every [FileReadWriter] that pool creates, and counts what the build
    action does with its temporary files.  This development embeds the three
    decorators and states the properties of the bookkeeping.

    - [uint64] fields are integers of [Z] with the wrap-around of Go's
      unsigned arithmetic written out ([uint64], [add64], [sub64]).
    - The decorated pool and its handles are an interface in Go; here they
      are a class of state machines ([InnerFilePool]): every method takes
      the state of the wrapped implementation and returns the next one.
    - Handles are heap objects; the heap is a list indexed by allocation
      order, and a handle is named by its index.
    - A method called through a nil pointer or nil interface panics; the
      methods return [None] there, as they do for an index that names no
      handle of the heap. *)

From Stdlib Require Import ZArith Lia String Strings.Byte.
From stdpp Require Import base option list.

Local Open Scope Z_scope.

(** ** Machine integers *)

(** The conversion [uint64(x)] of a signed value, and the reduction that
    every [uint64] operation performs on its mathematical result. *)
Definition uint64 (z : Z) : Z := z mod 2 ^ 64.

(** [a + b], [a - b], [a++] and [a--] on [uint64] operands. *)
Definition add64 (a b : Z) : Z := uint64 (a + b).
Definition sub64 (a b : Z) : Z := uint64 (a - b).
Definition incr64 (a : Z) : Z := add64 a 1.
Definition decr64 (a : Z) : Z := sub64 a 1.

(** Values a [uint64] variable can hold, and the values of Go's [int] and
    [int64] (both 64 bits wide on the platforms the worker runs on). *)
Definition is_uint64 (z : Z) : Prop := 0 <= z < 2 ^ 64.
Definition is_int64 (z : Z) : Prop := - 2 ^ 63 <= z < 2 ^ 63.

(** ** Errors *)

(** A value of Go's [error] interface: [None] is [nil]. *)
Definition error : Type := option string.

(** ** resourceusage.FilePoolResourceUsage *)

Record FilePoolResourceUsage : Type := mkUsage {
  FilesCreated : Z;
  FilesCountPeak : Z;
  FilesSizeBytesPeak : Z;
  ReadsCount : Z;
  ReadsSizeBytes : Z;
  WritesCount : Z;
  WritesSizeBytes : Z;
  TruncatesCount : Z
}.

(** The zero value of the message. *)
Definition zeroUsage : FilePoolResourceUsage := mkUsage 0 0 0 0 0 0 0 0.

(** ** The decorated interfaces *)

(** [re_filesystem.FilePool] and [filesystem.FileReadWriter] as seen by the
    decorator.  [B] is the state of the wrapped implementation and [F] the
    type of its file handles.  [inner_NewFile] returns Go's pair
    [(FileReadWriter, error)]; [inner_ReadAt] also returns the contents of
    the buffer [p] after the call. *)
Class InnerFilePool (B F : Type) : Type := {
  inner_NewFile : B → B * (option F * error);
  inner_ReadAt : F → list byte → Z → B → B * (list byte * Z * error);
  inner_WriteAt : F → list byte → Z → B → B * (Z * error);
  inner_Truncate : F → Z → B → B * error;
  inner_Close : F → B → B * error
}.

(** ** statsCollectingFilePool and statsCollectingFileReadWriter *)

(** The fields of [statsCollectingFilePool] that the decorator owns.  The
    field [base] is the state of the wrapped pool and lives in [world]; the
    mutex [lock] has no content in a sequential run. *)
Record statsCollectingFilePool : Type := mkPool {
  stats : FilePoolResourceUsage;
  totalSize : Z;
  totalFiles : Z
}.

(** [statsCollectingFileReadWriter]: the embedded interface value
    [FileReadWriter] ([None] is nil), the back pointer [pool] ([false] is
    nil, [true] points to the one pool of the run) and [size]. *)
Record statsCollectingFileReadWriter (F : Type) : Type := mkFile {
  FileReadWriter : option F;
  pool : bool;
  size : Z
}.
Arguments mkFile {F} _ _ _.
Arguments FileReadWriter {F} _.
Arguments pool {F} _.
Arguments size {F} _.

(** Everything a run can touch: the wrapped pool, the instrumented pool and
    the instrumented handles allocated so far. *)
Record world (B F : Type) : Type := mkWorld {
  base : B;
  fp : statsCollectingFilePool;
  files : list (statsCollectingFileReadWriter F)
}.
Arguments mkWorld {B F} _ _ _.
Arguments base {B F} _.
Arguments fp {B F} _.
Arguments files {B F} _.

(** [statsCollectingFilePool{base: filePool}], as [Execute] builds it. *)
Definition newPool : statsCollectingFilePool := mkPool zeroUsage 0 0.

Definition newWorld {B F : Type} (b : B) : world B F := mkWorld b newPool [].

Section Decorators.
Context {B F : Type} `{!InnerFilePool B F}.

(** [func (fp *statsCollectingFilePool) NewFile()].  The result is the
    pair of the new handle (its index in [files]; [None] is nil) and the
    error. *)
Definition NewFile (w : world B F) : option (world B F * (option nat * error)) :=
  let '(b, (f, err)) := inner_NewFile (base w) in
  match err with
  | Some _ => Some (mkWorld b (fp w) (files w), (None, err))
  | None =>
      let st := stats (fp w) in
      let totalFiles' := incr64 (totalFiles (fp w)) in
      let peak :=
        if FilesCountPeak st <? totalFiles' then totalFiles' else FilesCountPeak st in
      let st' :=
        mkUsage (incr64 (FilesCreated st)) peak (FilesSizeBytesPeak st)
                (ReadsCount st) (ReadsSizeBytes st)
                (WritesCount st) (WritesSizeBytes st) (TruncatesCount st) in
      Some (mkWorld b (mkPool st' (totalSize (fp w)) totalFiles')
                    (files w ++ [mkFile f true 0]),
            (Some (length (files w)), None))
  end.

(** [func (f *statsCollectingFileReadWriter) updateSizeLocked(newSize)],
    on the handle [f] and the pool it points to. *)
Definition updateSizeLocked (f : statsCollectingFileReadWriter F) (newSize : Z) (p : statsCollectingFilePool)
  : statsCollectingFilePool * statsCollectingFileReadWriter F :=
  let total1 := sub64 (totalSize p) (size f) in
  let f' := mkFile (FileReadWriter f) (pool f) newSize in
  let total2 := add64 total1 (size f') in
  let st := stats p in
  let peak :=
    if FilesSizeBytesPeak st <? total2 then total2 else FilesSizeBytesPeak st in
  (mkPool (mkUsage (FilesCreated st) (FilesCountPeak st) peak
                   (ReadsCount st) (ReadsSizeBytes st)
                   (WritesCount st) (WritesSizeBytes st) (TruncatesCount st))
          total2 (totalFiles p),
   f').

(** [ReadAt]: the wrapped call first, then the counters. *)
Definition ReadAt (h : nat) (p : list byte) (off : Z) (w : world B F)
  : option (world B F * (list byte * Z * error)) :=
  f ← files w !! h;
  i ← FileReadWriter f;
  let '(b, (p', n, err)) := inner_ReadAt i p off (base w) in
  if pool f then
    let st := stats (fp w) in
    let st' :=
      mkUsage (FilesCreated st) (FilesCountPeak st) (FilesSizeBytesPeak st)
              (incr64 (ReadsCount st)) (add64 (ReadsSizeBytes st) (uint64 n))
              (WritesCount st) (WritesSizeBytes st) (TruncatesCount st) in
    Some (mkWorld b (mkPool st' (totalSize (fp w)) (totalFiles (fp w))) (files w),
          (p', n, err))
  else None.

(** [WriteAt]. *)
Definition WriteAt (h : nat) (p : list byte) (off : Z) (w : world B F)
  : option (world B F * (Z * error)) :=
  f ← files w !! h;
  i ← FileReadWriter f;
  let '(b, (n, err)) := inner_WriteAt i p off (base w) in
  if pool f then
    let st := stats (fp w) in
    let st' :=
      mkUsage (FilesCreated st) (FilesCountPeak st) (FilesSizeBytesPeak st)
              (ReadsCount st) (ReadsSizeBytes st)
              (incr64 (WritesCount st)) (add64 (WritesSizeBytes st) (uint64 n))
              (TruncatesCount st) in
    let p1 := mkPool st' (totalSize (fp w)) (totalFiles (fp w)) in
    let newSize := add64 (uint64 off) (uint64 n) in
    let '(p2, f') :=
      if (0 <? n) && (size f <? newSize) then updateSizeLocked f newSize p1
      else (p1, f) in
    Some (mkWorld b p2 (<[h := f']> (files w)), (n, err))
  else None.

(** [Truncate]. *)
Definition Truncate (h : nat) (length : Z) (w : world B F)
  : option (world B F * error) :=
  f ← files w !! h;
  i ← FileReadWriter f;
  let '(b, err) := inner_Truncate i length (base w) in
  if pool f then
    let st := stats (fp w) in
    let st' :=
      mkUsage (FilesCreated st) (FilesCountPeak st) (FilesSizeBytesPeak st)
              (ReadsCount st) (ReadsSizeBytes st)
              (WritesCount st) (WritesSizeBytes st)
              (incr64 (TruncatesCount st)) in
    let p1 := mkPool st' (totalSize (fp w)) (totalFiles (fp w)) in
    let '(p2, f') :=
      match err with
      | None => updateSizeLocked f (uint64 length) p1
      | Some _ => (p1, f)
      end in
    Some (mkWorld b p2 (<[h := f']> (files w)), err)
  else None.

(** [Close]: the handle loses its inner handle and its back pointer and
    keeps its [size]. *)
Definition Close (h : nat) (w : world B F) : option (world B F * error) :=
  f ← files w !! h;
  i ← FileReadWriter f;
  let '(b, err) := inner_Close i (base w) in
  if pool f then
    let p' :=
      mkPool (stats (fp w)) (sub64 (totalSize (fp w)) (size f))
             (decr64 (totalFiles (fp w))) in
    Some (mkWorld b p' (<[h := mkFile None false (size f)]> (files w)), err)
  else None.

End Decorators.

(** ** Runs of a build action against one pool *)

(** A call a build action makes on the instrumented pool or on one of its
    handles, and what that call returns. *)
Inductive op : Type :=
| OpNewFile
| OpReadAt (h : nat) (p : list byte) (off : Z)
| OpWriteAt (h : nat) (p : list byte) (off : Z)
| OpTruncate (h : nat) (length : Z)
| OpClose (h : nat).

Inductive result : Type :=
| RNewFile (h : option nat) (err : error)
| RReadAt (p : list byte) (n : Z) (err : error)
| RWriteAt (n : Z) (err : error)
| RTruncate (err : error)
| RClose (err : error).

Section Runs.
Context {B F : Type} `{!InnerFilePool B F}.

Definition step (o : op) (w : world B F) : option (world B F * result) :=
  match o with
  | OpNewFile =>
      '(w', (h, err)) ← NewFile w; Some (w', RNewFile h err)
  | OpReadAt h p off =>
      '(w', (p', n, err)) ← ReadAt h p off w; Some (w', RReadAt p' n err)
  | OpWriteAt h p off =>
      '(w', (n, err)) ← WriteAt h p off w; Some (w', RWriteAt n err)
  | OpTruncate h length =>
      '(w', err) ← Truncate h length w; Some (w', RTruncate err)
  | OpClose h =>
      '(w', err) ← Close h w; Some (w', RClose err)
  end.

(** The calls of [l] one after the other; [None] as soon as one panics. *)
Fixpoint run (l : list op) (w : world B F) : option (world B F * list result) :=
  match l with
  | [] => Some (w, [])
  | o :: l' =>
      '(w1, r) ← step o w;
      '(w2, rs) ← run l' w1;
      Some (w2, r :: rs)
  end.

End Runs.

(** ** What the counters are meant to measure *)

(** The sum of [g] over the handles of a heap. *)
Definition sum_with {F : Type} (g : statsCollectingFileReadWriter F → Z)
  (l : list (statsCollectingFileReadWriter F)) : Z :=
  foldr (λ f acc, g f + acc) 0 l.

(** A handle counts as live from its creation until [Close] is called on
    it, which is when its back pointer is cleared. *)
Definition live_one {F : Type} (f : statsCollectingFileReadWriter F) : Z :=
  if pool f then 1 else 0.
Definition live_size {F : Type} (f : statsCollectingFileReadWriter F) : Z :=
  if pool f then size f else 0.

(** The number of handles created and not yet closed, and the sum of their
    current sizes, as mathematical integers. *)
Definition liveFiles {B F : Type} (w : world B F) : Z := sum_with live_one (files w).
Definition liveSize {B F : Type} (w : world B F) : Z := sum_with live_size (files w).

(** The state invariant of the data model: the live counters are what they
    are meant to measure and the peaks dominate them. *)
Definition pool_invariant {B F : Type} (w : world B F) : Prop :=
  totalFiles (fp w) = liveFiles w ∧
  totalSize (fp w) = liveSize w ∧
  totalFiles (fp w) <= FilesCountPeak (stats (fp w)) ∧
  totalSize (fp w) <= FilesSizeBytesPeak (stats (fp w)).

(** Every handle of the heap holds a [uint64] in [size]. *)
Definition sizes_ok {B F : Type} (w : world B F) : Prop :=
  Forall (λ f, is_uint64 (size f)) (files w).

(** ** Two wrapped pools to run the decorators on *)

(** A pool that never fails: handles are numbered from the state on, a
    write accepts the whole buffer, a read fills the whole buffer, truncate
    and close succeed. *)
#[local] Instance acceptingPool : InnerFilePool nat nat := {
  inner_NewFile b := (S b, (Some b, None));
  inner_ReadAt _ p _ b := (b, (p, Z.of_nat (length p), None));
  inner_WriteAt _ p _ b := (b, (Z.of_nat (length p), None));
  inner_Truncate _ _ b := (b, None);
  inner_Close _ b := (b, None)
}.

(** A scripted pool in the manner of a mock: its state is the list of the
    answers it still has to give, whatever the call. *)
Record answer : Type := mkAnswer {
  ans_file : option nat;
  ans_buf : list byte;
  ans_n : Z;
  ans_err : error
}.

Definition next_answer (b : list answer) : list answer * answer :=
  match b with
  | a :: b' => (b', a)
  | [] => ([], mkAnswer None [] 0 (Some "no answer left"%string))
  end.

#[local] Instance scriptedPool : InnerFilePool (list answer) nat := {
  inner_NewFile b := let '(b', a) := next_answer b in (b', (ans_file a, ans_err a));
  inner_ReadAt _ _ _ b :=
    let '(b', a) := next_answer b in (b', (ans_buf a, ans_n a, ans_err a));
  inner_WriteAt _ _ _ b := let '(b', a) := next_answer b in (b', (ans_n a, ans_err a));
  inner_Truncate _ _ b := let '(b', a) := next_answer b in (b', ans_err a);
  inner_Close _ b := let '(b', a) := next_answer b in (b', ans_err a)
}.

(** A handle is open when it is on the heap with both its inner handle and
    its back pointer set. *)
Definition is_open {B F : Type} (w : world B F) (h : nat) (f : statsCollectingFileReadWriter F) (i : F) : Prop :=
  files w !! h = Some f ∧ FileReadWriter f = Some i ∧ pool f = true.

(** The live counters follow the live aggregates modulo [2 ^ 64], whatever
    the sizes involved. *)
Definition counters_modular {B F : Type} (w : world B F) : Prop :=
  totalFiles (fp w) = uint64 (liveFiles w) ∧
  totalSize (fp w) = uint64 (liveSize w).

(** The bytes a call reports as written, and their sum over the results of
    a run: what the wrapped handles accepted, by C1. *)
Definition write_bytes (r : result) : Z :=
  match r with
  | RWriteAt n _ => n
  | _ => 0
  end.

Definition bytes_accepted (rs : list result) : Z :=
  foldr (λ r acc, write_bytes r + acc) 0 rs.

(** A world of the scripted pool with one open handle of size 40. *)
Definition one_open (script : list answer) : world (list answer) nat :=
  mkWorld script (mkPool (mkUsage 1 1 40 0 0 1 40 0) 40 1) [mkFile (Some 7%nat) true 40].

(** Three handles of one pool; the first is truncated to [a] and the other
    two to [2 ^ 63 - 1], the largest length an [int64] can name.  The sum
    of the three sizes is [2 ^ 64 - 2 + a]. *)
Definition sparse_trio (a : Z) : list op :=
  [OpNewFile; OpNewFile; OpNewFile;
   OpTruncate 0 a; OpTruncate 1 (2 ^ 63 - 1); OpTruncate 2 (2 ^ 63 - 1)].

(** ** The executor *)

Section Executor.
Context {B F : Type} `{!InnerFilePool B F}.

(** What [Execute] passes on without looking inside: its arguments other
    than the file pool ([ctx], [instanceName], [request] and
    [executionStateUpdates]), the packed message [anypb.Any], and the parts
    of the response the inner executor alone decides. *)
Context {Args Any Outcome : Type}.

(** [anypb.New]: the message packed, or the error of the marshaller. *)
Variable anypb_New : FilePoolResourceUsage → Any + string.

(** [util.StatusWrap] of bb-storage: an error made of another one and a
    message put in front of it. *)
Variable StatusWrap : string → string → string.

(** Modelled from the spec: the response message of the Remote Execution
    API, whose declaration is not part of this repository's sources.  The
    spec describes it as a result carrying a nested metadata section with an
    ordered list of typed auxiliary entries, and a side channel for
    attaching non-fatal diagnostic errors to an already produced result.
    [executed] stands for what the inner executor reports about the action
    itself (status, exit code, outputs). *)
Record ExecutedActionMetadata : Type := mkMetadata {
  AuxiliaryMetadata : list Any
}.

Record ActionResult : Type := mkResult {
  ExecutionMetadata : ExecutedActionMetadata;
  executed : Outcome
}.

Record ExecuteResponse : Type := mkResponse {
  Result : ActionResult;
  attached : list string
}.

(** Modelled from the spec: [attachErrorToExecuteResponse], a helper of
    package [builder] that is not in the file modelled here.  The spec calls
    it the standard error-attachment channel: it records the error on the
    response as a secondary, non-fatal annotation and leaves the primary
    result as it is. *)
Definition attachErrorToExecuteResponse (response : ExecuteResponse) (err : string)
  : ExecuteResponse :=
  mkResponse (Result response) (attached response ++ [err]).

(** The [BuildExecutor] interface: an executor runs the action against the
    pool it is given, here always the instrumented one, and returns its
    response. *)
Definition BuildExecutor : Type := Args → world B F → world B F * ExecuteResponse.

(** [func (be *filePoolStatsBuildExecutor) Execute(...)].  The result is
    the wrapped pool as the action left it and the response. *)
Definition Execute (buildExecutor : BuildExecutor) (args : Args) (filePool : B)
  : B * ExecuteResponse :=
  let '(w, response) := buildExecutor args (newWorld filePool) in
  let stats := stats (fp w) in
  match anypb_New stats with
  | inl resourceUsage =>
      (base w,
       mkResponse
         (mkResult
            (mkMetadata
               (AuxiliaryMetadata (ExecutionMetadata (Result response))
                  ++ [resourceUsage]))
            (executed (Result response)))
         (attached response))
  | inr err =>
      (base w,
       attachErrorToExecuteResponse response
         (StatusWrap err "Failed to marshal file pool resource usage"))
  end.

End Executor.


(** An executor that writes two bytes to one temporary file and reports an
    exit code of 0. *)
Definition demoExecutor : BuildExecutor (B:=nat) (F:=nat) (Args:=unit) (Any:=FilePoolResourceUsage) (Outcome:=Z) :=
  λ _ w,
    match run [OpNewFile; OpWriteAt 0 [x01; x02] 0; OpClose 0] w with
    | Some (w', _) => (w', mkResponse (mkResult (mkMetadata []) 0) [])
    | None => (w, mkResponse (mkResult (mkMetadata []) 1) [])
    end.

(** What [demoExecutor] leaves behind on a fresh pool. *)
Definition demoWorld : world nat nat :=
  mkWorld 1%nat (mkPool (mkUsage 1 1 2 0 0 1 2 0) 0 0) [mkFile None false 2].


(** ** Whole runs: counting calls *)

(** The handle a call is made on. *)
Definition target (o : op) : option nat :=
  match o with
  | OpNewFile => None
  | OpReadAt h _ _ | OpWriteAt h _ _ | OpTruncate h _ | OpClose h => Some h
  end.

(** The sum of [g] over the results of a run. *)
Definition tally (g : result → Z) (rs : list result) : Z :=
  foldr (λ r acc, g r + acc) 0 rs.

(** One for a creation that returned a handle, for a read, for a write and
    for a truncation; the bytes a read returned. *)
Definition created (r : result) : Z :=
  match r with
  | RNewFile (Some _) _ => 1
  | _ => 0
  end.

Definition was_read (r : result) : Z :=
  match r with
  | RReadAt _ _ _ => 1
  | _ => 0
  end.

Definition was_write (r : result) : Z :=
  match r with
  | RWriteAt _ _ => 1
  | _ => 0
  end.

Definition was_truncate (r : result) : Z :=
  match r with
  | RTruncate _ => 1
  | _ => 0
  end.

Definition read_bytes (r : result) : Z :=
  match r with
  | RReadAt _ n _ => n
  | _ => 0
  end.

(** * Properties *)

(** ** Arithmetic of [uint64] *)

Lemma uint64_range (z : Z) : is_uint64 (uint64 z).
Proof. unfold is_uint64, uint64. apply Z.mod_pos_bound. lia. Qed.

Lemma uint64_small (z : Z) : is_uint64 z → uint64 z = z.
Proof. unfold is_uint64, uint64. intros Hz. apply Z.mod_small. exact Hz. Qed.

Lemma sub64_uint64 (a b : Z) : sub64 (uint64 a) b = uint64 (a - b).
Proof. unfold sub64, uint64. apply Zminus_mod_idemp_l. Qed.

Lemma add64_uint64 (a b : Z) : add64 (uint64 a) b = uint64 (a + b).
Proof. unfold add64, uint64. apply Zplus_mod_idemp_l. Qed.

Lemma add64_uint64_r (a b : Z) : add64 a (uint64 b) = uint64 (a + b).
Proof. unfold add64, uint64. apply Zplus_mod_idemp_r. Qed.

Lemma add64_sub64 (a b c : Z) : add64 (sub64 a b) c = uint64 (a - b + c).
Proof. unfold sub64. apply add64_uint64. Qed.

Lemma incr64_uint64 (a : Z) : incr64 (uint64 a) = uint64 (a + 1).
Proof. apply add64_uint64. Qed.

Lemma decr64_uint64 (a : Z) : decr64 (uint64 a) = uint64 (a - 1).
Proof. apply sub64_uint64. Qed.

(** The two assignments of [updateSizeLocked] to [totalSize], when the
    counter follows [s] modulo [2 ^ 64]. *)
Lemma total_update (s old new : Z) :
  add64 (sub64 (uint64 s) old) new = uint64 (s - old + new).
Proof.
  unfold add64, sub64, uint64.
  rewrite Zplus_mod_idemp_l.
  replace (s mod 2 ^ 64 - old + new) with (s mod 2 ^ 64 + (new - old)) by lia.
  rewrite Zplus_mod_idemp_l. f_equal. lia.
Qed.

(** A non-negative offset and a positive count of Go's signed types add up
    without leaving [uint64]. *)
Lemma newSize_exact (off n : Z) :
  is_int64 off → is_int64 n → 0 <= off → 0 <= n →
  add64 (uint64 off) (uint64 n) = off + n.
Proof.
  unfold is_int64. intros Hoff Hn Hoff0 Hn0.
  unfold add64.
  rewrite (uint64_small off), (uint64_small n), uint64_small;
    unfold is_uint64; lia.
Qed.

(** ** Sums over the heap *)

Section Sums.
Context {F : Type} (g : statsCollectingFileReadWriter F → Z).

Lemma sum_with_app (l : list (statsCollectingFileReadWriter F)) x :
  sum_with g (l ++ [x]) = sum_with g l + g x.
Proof. induction l as [|y l IH]; simpl; lia. Qed.

Lemma sum_with_insert (l : list (statsCollectingFileReadWriter F)) h f f' :
  l !! h = Some f → sum_with g (<[h := f']> l) = sum_with g l - g f + g f'.
Proof.
  revert h. induction l as [|y l IH]; intros [|h] Hl; simpl in *; try done.
  - injection Hl as ->. lia.
  - rewrite (IH h Hl). lia.
Qed.

Lemma sum_with_nonneg (l : list (statsCollectingFileReadWriter F)) :
  Forall (λ f, 0 <= g f) l → 0 <= sum_with g l.
Proof. induction 1; simpl; lia. Qed.

Lemma sum_with_lookup_le (l : list (statsCollectingFileReadWriter F)) h f :
  Forall (λ f, 0 <= g f) l → l !! h = Some f → g f <= sum_with g l.
Proof.
  intros Hl. revert h. induction Hl as [|y l Hy Hl IH]; intros [|h] Hh; simpl in *; try done.
  - injection Hh as ->. pose proof (sum_with_nonneg l Hl). lia.
  - specialize (IH h Hh). lia.
Qed.

Lemma sum_with_zero (l : list (statsCollectingFileReadWriter F)) :
  Forall (λ f, g f = 0) l → sum_with g l = 0.
Proof. induction 1; simpl; lia. Qed.

End Sums.

Lemma live_one_eq {F : Type} (f : statsCollectingFileReadWriter F) :
  live_one f = if pool f then 1 else 0.
Proof. reflexivity. Qed.

Lemma live_size_eq {F : Type} (f : statsCollectingFileReadWriter F) :
  live_size f = if pool f then size f else 0.
Proof. reflexivity. Qed.

Lemma live_one_nonneg {F : Type} (l : list (statsCollectingFileReadWriter F)) :
  Forall (λ f, 0 <= live_one f) l.
Proof. apply Forall_forall. intros f _. unfold live_one. destruct (pool f); lia. Qed.

Lemma live_size_nonneg {F : Type} (l : list (statsCollectingFileReadWriter F)) :
  Forall (λ f, is_uint64 (size f)) l → Forall (λ f, 0 <= live_size f) l.
Proof.
  intros Hl. eapply Forall_impl; [exact Hl|].
  intros f Hf. unfold live_size, is_uint64 in *. destruct (pool f); lia.
Qed.

(** ** The methods on an open handle *)

Section Methods.
Context {B F : Type} `{!InnerFilePool B F}.

Lemma step_open_inv o w w' r :
  step o w = Some (w', r) →
  match o with
  | OpNewFile => True
  | OpReadAt h _ _ | OpWriteAt h _ _ | OpTruncate h _ | OpClose h =>
      ∃ f i, is_open w h f i
  end.
Proof.
  destruct o as [|h p off|h p off|h len|h]; [done|..]; simpl;
    unfold ReadAt, WriteAt, Truncate, Close; intros Hs;
    destruct (files w !! h) as [f|] eqn:Hh; simpl in Hs; try done;
    destruct (FileReadWriter f) as [i|] eqn:Hi; simpl in Hs; try done;
    destruct (pool f) eqn:Hp;
    try (exists f, i; done).
  all: repeat case_match; simplify_eq.
Qed.

End Methods.

(** ** One step of a run *)

(** Expose the state after a step: name the handle the call is made on and
    the answer of the wrapped implementation, then evaluate the method. *)
Ltac step_cases Hs :=
  let f := fresh "f" in
  let i := fresh "i" in
  let Hh := fresh "Hh" in
  let Hi := fresh "Hi" in
  let Hp := fresh "Hp" in
  let Hin := fresh "Hin" in
  lazymatch type of Hs with
  | step ?o ?w = Some _ =>
      let Hopen := fresh "Hopen" in
      pose proof (step_open_inv _ _ _ _ Hs) as Hopen;
      destruct o as [|? ? ?|? ? ?|? ?|?];
      [ clear Hopen; simpl in Hs; unfold NewFile in Hs;
        destruct (inner_NewFile (base w)) as [? [? [?|]]] eqn:Hin;
        simpl in Hs; simplify_eq
      | destruct Hopen as (f & i & Hh & Hi & Hp); simpl in Hs; unfold ReadAt in Hs;
        rewrite Hh in Hs; simpl in Hs; rewrite Hi in Hs; simpl in Hs;
        destruct (inner_ReadAt i _ _ (base w)) as [? [[? ?] ?]] eqn:Hin;
        rewrite Hp in Hs; simpl in Hs; simplify_eq
      | destruct Hopen as (f & i & Hh & Hi & Hp); simpl in Hs; unfold WriteAt in Hs;
        rewrite Hh in Hs; simpl in Hs; rewrite Hi in Hs; simpl in Hs;
        destruct (inner_WriteAt i _ _ (base w)) as [? [? ?]] eqn:Hin;
        rewrite Hp in Hs; simpl in Hs;
        let Hgrow := fresh "Hgrow" in
        match type of Hs with
        | context [if ?c then _ else _] => destruct c eqn:Hgrow
        end; simpl in Hs; simplify_eq
      | destruct Hopen as (f & i & Hh & Hi & Hp); simpl in Hs; unfold Truncate in Hs;
        rewrite Hh in Hs; simpl in Hs; rewrite Hi in Hs; simpl in Hs;
        destruct (inner_Truncate i _ (base w)) as [? [?|]] eqn:Hin;
        rewrite Hp in Hs; simpl in Hs; simplify_eq
      | destruct Hopen as (f & i & Hh & Hi & Hp); simpl in Hs; unfold Close in Hs;
        rewrite Hh in Hs; simpl in Hs; rewrite Hi in Hs; simpl in Hs;
        destruct (inner_Close i (base w)) as [? ?] eqn:Hin;
        rewrite Hp in Hs; simpl in Hs; simplify_eq ]
  end.

(** Decide the comparisons that guard the two peak updates. *)
Ltac ltb_cases :=
  repeat match goal with
    | |- context [?a <? ?b] => destruct (Z.ltb_spec a b)
    end.

Section Steps.
Context {B F : Type} `{!InnerFilePool B F}.

(** No method ever lowers a peak. *)
Lemma step_peaks_mono o (w w' : world B F) r :
  step o w = Some (w', r) →
  FilesCountPeak (stats (fp w)) <= FilesCountPeak (stats (fp w')) ∧
  FilesSizeBytesPeak (stats (fp w)) <= FilesSizeBytesPeak (stats (fp w')).
Proof.
  intros Hs. step_cases Hs; simpl; ltb_cases; lia.
Qed.

(** The [size] fields stay within [uint64]. *)
Lemma step_sizes_ok o (w w' : world B F) r :
  step o w = Some (w', r) → sizes_ok w → sizes_ok w'.
Proof.
  unfold sizes_ok. intros Hs Hw. step_cases Hs; simpl; try done.
  all: try (apply Forall_insert; [done|]; simpl).
  all: try apply uint64_range.
  all: try (eapply (Forall_lookup_1 _ _ _ _ Hw); eauto).
  apply Forall_app. split; [done|].
  repeat constructor; simpl; lia.
Qed.

Lemma step_counters_modular o (w w' : world B F) r :
  step o w = Some (w', r) → counters_modular w → counters_modular w'.
Proof.
  unfold counters_modular, liveFiles, liveSize.
  intros Hs [Hn Hz]. step_cases Hs; simpl; try done.
  all: rewrite ?sum_with_app, ?(sum_with_insert _ _ _ _ _ Hh).
  all: rewrite ?live_one_eq, ?live_size_eq; simpl; rewrite ?Hp, ?Hn, ?Hz.
  all: rewrite ?total_update, ?incr64_uint64, ?decr64_uint64, ?sub64_uint64.
  all: split; f_equal; lia.
Qed.

(** The count of live handles is at most the number of handles. *)
Lemma liveFiles_le_length (w : world B F) :
  0 <= liveFiles w <= Z.of_nat (length (files w)).
Proof.
  unfold liveFiles. induction (files w) as [|f l IH]; simpl; [lia|].
  rewrite live_one_eq. destruct (pool f); lia.
Qed.

Lemma liveSize_nonneg (w : world B F) : sizes_ok w → 0 <= liveSize w.
Proof. intros Hs. apply sum_with_nonneg. by apply live_size_nonneg. Qed.

(** A step does not shorten the heap. *)
Lemma step_length_le o (w w' : world B F) r :
  step o w = Some (w', r) → (length (files w) <= length (files w'))%nat.
Proof.
  intros Hs. step_cases Hs; simpl; rewrite ?length_insert, ?length_app; lia.
Qed.

(** A step keeps [FilesCountPeak] above [totalFiles] as long as the count
    of live handles was below [2 ^ 64] before it, whatever the sizes:
    [Close] lowers [totalFiles] only then. *)
Lemma step_count_peak o (w w' : world B F) r :
  step o w = Some (w', r) →
  totalFiles (fp w) = uint64 (liveFiles w) → liveFiles w < 2 ^ 64 →
  totalFiles (fp w) <= FilesCountPeak (stats (fp w)) →
  totalFiles (fp w') <= FilesCountPeak (stats (fp w')).
Proof.
  intros Hs Hmod Hlt Hpk.
  pose proof (liveFiles_le_length w) as [H0 _].
  rewrite uint64_small in Hmod by (unfold is_uint64; lia).
  unfold liveFiles in *.
  step_cases Hs; simpl; try done.
  all: try (ltb_cases; lia).
  pose proof (sum_with_lookup_le live_one _ _ _ (live_one_nonneg (files w)) Hh) as H1.
  rewrite live_one_eq, Hp in H1.
  unfold decr64, sub64. rewrite uint64_small; unfold is_uint64; lia.
Qed.

(** A step keeps [FilesSizeBytesPeak] above [totalSize] as long as the sum
    of the live sizes was below [2 ^ 64] before it. *)
Lemma step_size_peak o (w w' : world B F) r :
  step o w = Some (w', r) → sizes_ok w →
  totalSize (fp w) = uint64 (liveSize w) → liveSize w < 2 ^ 64 →
  totalSize (fp w) <= FilesSizeBytesPeak (stats (fp w)) →
  totalSize (fp w') <= FilesSizeBytesPeak (stats (fp w')).
Proof.
  intros Hs Hsz Hmod Hlt Hpk.
  pose proof (liveSize_nonneg w Hsz) as H0.
  rewrite uint64_small in Hmod by (unfold is_uint64; lia).
  unfold liveSize in *.
  step_cases Hs; simpl; try done.
  all: try (ltb_cases; lia).
  pose proof (sum_with_lookup_le live_size _ _ _ (live_size_nonneg _ Hsz) Hh) as H2.
  pose proof (Forall_lookup_1 _ _ _ _ Hsz Hh) as Hf.
  rewrite live_size_eq, Hp in H2.
  unfold is_uint64 in Hf. simpl in Hf.
  unfold sub64. rewrite uint64_small; unfold is_uint64; lia.
Qed.

Lemma run_cons_inv o l (w w' : world B F) rs :
  run (o :: l) w = Some (w', rs) →
  ∃ w1 r rs', step o w = Some (w1, r) ∧ run l w1 = Some (w', rs') ∧ rs = r :: rs'.
Proof.
  simpl. intros Hr.
  destruct (step o w) as [[w1 r]|]; simpl in Hr; [|done].
  destruct (run l w1) as [[w2 rs']|] eqn:Hl; simpl in Hr; [|done].
  simplify_eq. by exists w1, r, rs'.
Qed.

Lemma run_cons o l (w w1 w2 : world B F) r rs :
  step o w = Some (w1, r) → run l w1 = Some (w2, rs) →
  run (o :: l) w = Some (w2, r :: rs).
Proof. intros Hs Hr. simpl. rewrite Hs. simpl. rewrite Hr. reflexivity. Qed.

Lemma run_app (l1 l2 : list op) (w w1 : world B F) rs1 :
  run l1 w = Some (w1, rs1) →
  run (l1 ++ l2) w = '(w2, rs2) ← run l2 w1; Some (w2, rs1 ++ rs2).
Proof.
  revert w rs1. induction l1 as [|o l1 IH]; intros w rs1 Hr.
  - simpl in Hr. simplify_eq. simpl. by destruct (run l2 w1) as [[? ?]|].
  - apply run_cons_inv in Hr as (w0 & r & rs' & Hs & Hr & ->).
    simpl. rewrite Hs. simpl. rewrite (IH _ _ Hr).
    by destruct (run l2 w1) as [[? ?]|].
Qed.

Lemma run_app_inv (l1 l2 : list op) (w w1 w' : world B F) rs rs1 :
  run (l1 ++ l2) w = Some (w', rs) → run l1 w = Some (w1, rs1) →
  ∃ rs2, run l2 w1 = Some (w', rs2).
Proof.
  intros Hr Hr1. rewrite (run_app _ l2 _ _ _ Hr1) in Hr.
  destruct (run l2 w1) as [[w2 rs2]|]; simpl in Hr; [|done].
  simplify_eq. by exists rs2.
Qed.

(** Invariants of every run. *)
Lemma run_sizes_ok l (w w' : world B F) rs :
  run l w = Some (w', rs) → sizes_ok w → sizes_ok w'.
Proof.
  revert w rs. induction l as [|o l IH]; intros w rs Hr Hw.
  - simpl in Hr. by simplify_eq.
  - apply run_cons_inv in Hr as (w1 & r & rs' & Hs & Hr & ->).
    eauto using step_sizes_ok.
Qed.

Lemma run_counters_modular l (w w' : world B F) rs :
  run l w = Some (w', rs) → counters_modular w → counters_modular w'.
Proof.
  revert w rs. induction l as [|o l IH]; intros w rs Hr Hw.
  - simpl in Hr. by simplify_eq.
  - apply run_cons_inv in Hr as (w1 & r & rs' & Hs & Hr & ->).
    eauto using step_counters_modular.
Qed.

Lemma run_peaks_mono l (w w' : world B F) rs :
  run l w = Some (w', rs) →
  FilesCountPeak (stats (fp w)) <= FilesCountPeak (stats (fp w')) ∧
  FilesSizeBytesPeak (stats (fp w)) <= FilesSizeBytesPeak (stats (fp w')).
Proof.
  revert w rs. induction l as [|o l IH]; intros w rs Hr.
  - simpl in Hr. simplify_eq. lia.
  - apply run_cons_inv in Hr as (w1 & r & rs' & Hs & Hr & ->).
    pose proof (step_peaks_mono _ _ _ _ Hs). pose proof (IH _ _ Hr). lia.
Qed.

Lemma run_length_le l (w w' : world B F) rs :
  run l w = Some (w', rs) → (length (files w) <= length (files w'))%nat.
Proof.
  revert w rs. induction l as [|o l IH]; intros w rs Hr.
  - simpl in Hr. by simplify_eq.
  - apply run_cons_inv in Hr as (w1 & r & rs' & Hs & Hr & ->).
    pose proof (step_length_le _ _ _ _ Hs). pose proof (IH _ _ Hr). lia.
Qed.

(** A run throughout which fewer than [2 ^ 64] handles are live keeps
    [FilesCountPeak] above [totalFiles]. *)
Lemma run_count_peak l (w w' : world B F) rs :
  run l w = Some (w', rs) →
  counters_modular w →
  totalFiles (fp w) <= FilesCountPeak (stats (fp w)) →
  (∀ l1 l2 w1 rs1,
      l = l1 ++ l2 → run l1 w = Some (w1, rs1) → liveFiles w1 < 2 ^ 64) →
  totalFiles (fp w') <= FilesCountPeak (stats (fp w')).
Proof.
  revert w rs. induction l as [|o l IH]; intros w rs Hr Hmod Hpk Hrange.
  - simpl in Hr. by simplify_eq.
  - apply run_cons_inv in Hr as (w1 & r & rs' & Hs & Hr & ->).
    assert (liveFiles w < 2 ^ 64) as Hin by (by apply (Hrange [] (o :: l) w [])).
    apply (IH _ _ Hr).
    + eauto using step_counters_modular.
    + destruct Hmod. eauto using step_count_peak.
    + intros l1 l2 w2 rs2 -> Hr1.
      apply (Hrange (o :: l1) l2 w2 (r :: rs2)); [done|].
      exact (run_cons _ _ _ _ _ _ _ Hs Hr1).
Qed.

(** A run throughout which the live sizes add up to less than [2 ^ 64]
    keeps [FilesSizeBytesPeak] above [totalSize]. *)
Lemma run_size_peak l (w w' : world B F) rs :
  run l w = Some (w', rs) →
  sizes_ok w → counters_modular w →
  totalSize (fp w) <= FilesSizeBytesPeak (stats (fp w)) →
  (∀ l1 l2 w1 rs1,
      l = l1 ++ l2 → run l1 w = Some (w1, rs1) → liveSize w1 < 2 ^ 64) →
  totalSize (fp w') <= FilesSizeBytesPeak (stats (fp w')).
Proof.
  revert w rs. induction l as [|o l IH]; intros w rs Hr Hsz Hmod Hpk Hrange.
  - simpl in Hr. by simplify_eq.
  - apply run_cons_inv in Hr as (w1 & r & rs' & Hs & Hr & ->).
    assert (liveSize w < 2 ^ 64) as Hin by (by apply (Hrange [] (o :: l) w [])).
    apply (IH _ _ Hr).
    + eauto using step_sizes_ok.
    + eauto using step_counters_modular.
    + destruct Hmod. eauto using step_size_peak.
    + intros l1 l2 w2 rs2 -> Hr1.
      apply (Hrange (o :: l1) l2 w2 (r :: rs2)); [done|].
      exact (run_cons _ _ _ _ _ _ _ Hs Hr1).
Qed.

Lemma newWorld_sizes_ok (b : B) : sizes_ok (newWorld (F:=F) b).
Proof. constructor. Qed.

Lemma newWorld_counters_modular (b : B) : counters_modular (newWorld (F:=F) b).
Proof. done. Qed.

End Steps.

(** * The claims *)

(** Evaluate a method on an open handle, given the answer [Hin] of the
    wrapped implementation. *)
Ltac run_method Hopen :=
  let Hh := fresh "Hh" in
  let Hi := fresh "Hi" in
  let Hp := fresh "Hp" in
  destruct Hopen as (Hh & Hi & Hp);
  unfold ReadAt, WriteAt, Truncate, Close;
  rewrite Hh; simpl; rewrite Hi; simpl.

Lemma one_open_is_open script :
  is_open (one_open script) 0 (mkFile (Some 7%nat) true 40) 7%nat.
Proof. repeat split. Defined.

(** C1. Transparency of results and errors: on an open instrumented handle,
    [ReadAt], [WriteAt], [Truncate] and [Close] return exactly what the same
    call on the wrapped handle returns (buffer contents, byte count and
    error), for every buffer, offset, length and every answer of the wrapped
    handle, and they leave the wrapped pool in the state that call leaves it
    in. *)
Theorem C1_results_and_errors_pass_through
  {B F : Type} `{!InnerFilePool B F} (w : world B F) h f i :
  is_open w h f i →
  (∀ p off, ∃ w',
      ReadAt h p off w = Some (w', (inner_ReadAt i p off (base w)).2) ∧
      base w' = (inner_ReadAt i p off (base w)).1) ∧
  (∀ p off, ∃ w',
      WriteAt h p off w = Some (w', (inner_WriteAt i p off (base w)).2) ∧
      base w' = (inner_WriteAt i p off (base w)).1) ∧
  (∀ length, ∃ w',
      Truncate h length w = Some (w', (inner_Truncate i length (base w)).2) ∧
      base w' = (inner_Truncate i length (base w)).1) ∧
  (∃ w',
      Close h w = Some (w', (inner_Close i (base w)).2) ∧
      base w' = (inner_Close i (base w)).1).
Proof.
  intros Hopen. repeat split.
  - intros p off. run_method Hopen.
    destruct (inner_ReadAt i p off (base w)) as [b [[p' n] err]].
    rewrite Hp. eexists. split; reflexivity.
  - intros p off. run_method Hopen.
    destruct (inner_WriteAt i p off (base w)) as [b [n err]].
    rewrite Hp. simpl.
    destruct ((0 <? n) && (size f <? add64 (uint64 off) (uint64 n)));
      simpl; eexists; split; reflexivity.
  - intros length. run_method Hopen.
    destruct (inner_Truncate i length (base w)) as [b [e|]];
      rewrite Hp; simpl; eexists; split; reflexivity.
  - run_method Hopen.
    destruct (inner_Close i (base w)) as [b err].
    rewrite Hp. eexists. split; reflexivity.
Qed.

(** A short write that also fails, and a failing close, come back as the
    wrapped handle gave them. *)
Lemma C1_results_and_errors_pass_through_witness :
  is_open (one_open [mkAnswer None [] 2 (Some "disk full"%string)]) 0
          (mkFile (Some 7%nat) true 40) 7%nat ∧
  (∃ w', WriteAt 0 [x01; x02; x03] 50
           (one_open [mkAnswer None [] 2 (Some "disk full"%string)])
         = Some (w', (2, Some "disk full"%string))) ∧
  (∃ w', Close 0 (one_open [mkAnswer None [] 2 (Some "disk full"%string)])
         = Some (w', Some "disk full"%string)).
Proof.
  split; [apply one_open_is_open|].
  destruct (C1_results_and_errors_pass_through
              (one_open [mkAnswer None [] 2 (Some "disk full"%string)]) 0
              (mkFile (Some 7%nat) true 40) 7%nat (one_open_is_open _))
    as (_ & Hw & _ & Hc).
  split.
  - destruct (Hw [x01; x02; x03] 50) as (w' & Hw' & _). exists w'. exact Hw'.
  - destruct Hc as (w' & Hc' & _). exists w'. exact Hc'.
Defined.

(** ** Reads and writes *)

Lemma step_WritesSizeBytes {B F : Type} `{!InnerFilePool B F} o (w w' : world B F) r :
  step o w = Some (w', r) →
  WritesSizeBytes (stats (fp w')) =
    match r with
    | RWriteAt n _ => add64 (WritesSizeBytes (stats (fp w))) (uint64 n)
    | _ => WritesSizeBytes (stats (fp w))
    end.
Proof. intros Hs. step_cases Hs; reflexivity. Qed.

Lemma run_WritesSizeBytes {B F : Type} `{!InnerFilePool B F} l (w w' : world B F) rs :
  run l w = Some (w', rs) →
  is_uint64 (WritesSizeBytes (stats (fp w))) →
  WritesSizeBytes (stats (fp w')) =
    uint64 (WritesSizeBytes (stats (fp w)) + bytes_accepted rs).
Proof.
  revert w rs. induction l as [|o l IH]; intros w rs Hr Hw.
  - simpl in Hr. simplify_eq. simpl. rewrite Z.add_0_r. by rewrite uint64_small.
  - apply run_cons_inv in Hr as (w1 & r & rs' & Hs & Hr & ->).
    apply step_WritesSizeBytes in Hs.
    assert (is_uint64 (WritesSizeBytes (stats (fp w1)))) as Hw1.
    { rewrite Hs. destruct r; try done. apply uint64_range. }
    rewrite (IH _ _ Hr Hw1), Hs. simpl.
    destruct r; simpl; try done.
    rewrite add64_uint64_r. unfold uint64.
    rewrite Zplus_mod_idemp_l. f_equal. lia.
Qed.

(** C4. Read/write bookkeeping: on an open handle every [ReadAt] adds one to
    [ReadsCount] and the byte count the wrapped handle returned to
    [ReadsSizeBytes], every [WriteAt] adds one to [WritesCount] and the byte
    count the wrapped handle returned to [WritesSizeBytes], whatever error
    came with it; the additions are those of [uint64], hence exact as long
    as the counter stays below [2 ^ 64].  Over a run from a fresh pool
    [WritesSizeBytes] is the sum of the byte counts the writes returned (not
    of the buffer lengths), reduced to [uint64]. *)
Theorem C4_read_write_bookkeeping {B F : Type} `{!InnerFilePool B F} :
  (∀ (w : world B F) h f i p off b p' n err,
      is_open w h f i →
      inner_ReadAt i p off (base w) = (b, (p', n, err)) →
      ∃ w', ReadAt h p off w = Some (w', (p', n, err)) ∧
        ReadsCount (stats (fp w')) = incr64 (ReadsCount (stats (fp w))) ∧
        ReadsSizeBytes (stats (fp w')) =
          add64 (ReadsSizeBytes (stats (fp w))) (uint64 n) ∧
        (is_uint64 (ReadsCount (stats (fp w)) + 1) →
         ReadsCount (stats (fp w')) = ReadsCount (stats (fp w)) + 1) ∧
        (0 <= n → is_uint64 (ReadsSizeBytes (stats (fp w)) + n) →
         ReadsSizeBytes (stats (fp w')) = ReadsSizeBytes (stats (fp w)) + n)) ∧
  (∀ (w : world B F) h f i p off b n err,
      is_open w h f i →
      inner_WriteAt i p off (base w) = (b, (n, err)) →
      ∃ w', WriteAt h p off w = Some (w', (n, err)) ∧
        WritesCount (stats (fp w')) = incr64 (WritesCount (stats (fp w))) ∧
        WritesSizeBytes (stats (fp w')) =
          add64 (WritesSizeBytes (stats (fp w))) (uint64 n) ∧
        (is_uint64 (WritesCount (stats (fp w)) + 1) →
         WritesCount (stats (fp w')) = WritesCount (stats (fp w)) + 1) ∧
        (0 <= n → is_uint64 (WritesSizeBytes (stats (fp w)) + n) →
         WritesSizeBytes (stats (fp w')) = WritesSizeBytes (stats (fp w)) + n)) ∧
  (∀ (b : B) l (w : world B F) rs,
      run l (newWorld b) = Some (w, rs) →
      WritesSizeBytes (stats (fp w)) = uint64 (bytes_accepted rs) ∧
      (is_uint64 (bytes_accepted rs) →
       WritesSizeBytes (stats (fp w)) = bytes_accepted rs)).
Proof.
  assert (∀ a n, 0 <= n → is_uint64 (a + n) → add64 a (uint64 n) = a + n) as Hadd.
  { intros a n Hn Ha. rewrite add64_uint64_r. by apply uint64_small. }
  repeat split.
  - intros w h f i p off b p' n err Hopen Hin. run_method Hopen.
    rewrite Hin, Hp. eexists. split; [reflexivity|]. simpl.
    repeat split; [apply uint64_small | apply Hadd].
  - intros w h f i p off b n err Hopen Hin. run_method Hopen.
    rewrite Hin, Hp. simpl.
    destruct ((0 <? n) && (size f <? add64 (uint64 off) (uint64 n)));
      simpl; (eexists; split; [reflexivity|]); simpl;
      (repeat split; [apply uint64_small | apply Hadd]).
  - apply run_WritesSizeBytes in H; [|done]. exact H.
  - intros Hsum. apply run_WritesSizeBytes in H; [|done].
    rewrite H. simpl. by apply uint64_small.
Qed.

(** A write of five bytes of which the wrapped handle takes three before it
    fails counts as one write of three bytes. *)
Lemma C4_read_write_bookkeeping_witness :
  is_open (one_open [mkAnswer None [] 3 (Some "no space"%string)]) 0
          (mkFile (Some 7%nat) true 40) 7%nat ∧
  ∃ w', WriteAt 0 [x01; x02; x03; x04; x05] 0
          (one_open [mkAnswer None [] 3 (Some "no space"%string)])
        = Some (w', (3, Some "no space"%string)) ∧
    WritesCount (stats (fp w')) = 2 ∧
    WritesSizeBytes (stats (fp w')) = 43.
Proof.
  split; [apply one_open_is_open|].
  destruct (proj1 (proj2 C4_read_write_bookkeeping)
              (one_open [mkAnswer None [] 3 (Some "no space"%string)]) 0%nat
              (mkFile (Some 7%nat) true 40) 7%nat [x01; x02; x03; x04; x05] 0
              [] 3 (Some "no space"%string) (one_open_is_open _))
    as (w' & Hw & Hc & Hb & _); [reflexivity|].
  exists w'. split; [exact Hw|]. split; [exact Hc | exact Hb].
Defined.

(** ** Sizes *)

(** What a step does to the handle stored at [h]: only [Truncate] on that
    very handle can leave it with a smaller [size]. *)
Lemma step_size_decrease {B F : Type} `{!InnerFilePool B F}
  o (w w' : world B F) r h f f' :
  step o w = Some (w', r) →
  files w !! h = Some f → files w' !! h = Some f' → size f' < size f →
  ∃ length, o = OpTruncate h length.
Proof.
  intros Hs Hf Hf' Hlt. step_cases Hs; simpl in Hf'.
  - rewrite Hf in Hf'. simplify_eq. lia.
  - rewrite lookup_app_l in Hf' by (by eapply lookup_lt_Some).
    rewrite Hf in Hf'. simplify_eq. lia.
  - rewrite Hf in Hf'. simplify_eq. lia.
  - destruct (decide (h0 = h)) as [->|Hne].
    + rewrite list_lookup_insert_eq in Hf' by (by eapply lookup_lt_Some).
      rewrite Hf in Hh. simplify_eq. simpl in Hlt.
      apply andb_prop in Hgrow as [_ Hgrow]. apply Z.ltb_lt in Hgrow. lia.
    + rewrite list_lookup_insert_ne in Hf' by done.
      rewrite Hf in Hf'. simplify_eq. lia.
  - rewrite list_insert_id in Hf' by done.
    rewrite Hf in Hf'. simplify_eq. lia.
  - destruct (decide (h0 = h)) as [->|Hne]; [by eexists|].
    rewrite list_lookup_insert_ne in Hf' by done.
    rewrite Hf in Hf'. simplify_eq. lia.
  - destruct (decide (h0 = h)) as [->|Hne]; [by eexists|].
    rewrite list_lookup_insert_ne in Hf' by done.
    rewrite Hf in Hf'. simplify_eq. lia.
  - destruct (decide (h0 = h)) as [->|Hne].
    + rewrite list_lookup_insert_eq in Hf' by (by eapply lookup_lt_Some).
      rewrite Hf in Hh. simplify_eq. simpl in Hlt. lia.
    + rewrite list_lookup_insert_ne in Hf' by done.
      rewrite Hf in Hf'. simplify_eq. lia.
Qed.

(** C5 as stated fails once the live sizes add up to [2 ^ 64] or more:
    with two handles truncated to [2 ^ 63 - 1] each the live total is
    [2 ^ 64 - 2]; five bytes accepted at offset 0 of a third, empty handle
    set its size to 5, and the live total goes to 3 instead of growing
    by 5. *)
Lemma C5_counterexample :
  let w :=
    mkWorld 3%nat
      (mkPool (mkUsage 3 3 (2 ^ 64 - 2) 0 0 0 0 2) (2 ^ 64 - 2) 3)
      [mkFile (Some 0%nat) true (2 ^ 63 - 1); mkFile (Some 1%nat) true (2 ^ 63 - 1);
       mkFile (Some 2%nat) true 0] in
  let w' :=
    mkWorld 3%nat
      (mkPool (mkUsage 3 3 (2 ^ 64 - 2) 0 0 1 5 2) 3 3)
      [mkFile (Some 0%nat) true (2 ^ 63 - 1); mkFile (Some 1%nat) true (2 ^ 63 - 1);
       mkFile (Some 2%nat) true 5] in
  run [OpNewFile; OpNewFile; OpNewFile;
       OpTruncate 0 (2 ^ 63 - 1); OpTruncate 1 (2 ^ 63 - 1)] (newWorld 0%nat)
    = Some (w, [RNewFile (Some 0%nat) None; RNewFile (Some 1%nat) None;
                RNewFile (Some 2%nat) None; RTruncate None; RTruncate None]) ∧
  WriteAt 2 [x01; x02; x03; x04; x05] 0 w = Some (w', (5, None)) ∧
  totalSize (fp w) = 2 ^ 64 - 2 ∧
  totalSize (fp w') = 3 ∧
  totalSize (fp w') ≠ totalSize (fp w) + (0 + 5 - 0).
Proof.
  intros w w'.
  split; [vm_compute; reflexivity|]. split; [vm_compute; reflexivity|].
  split; [reflexivity|]. split; [reflexivity|].
  vm_compute. discriminate.
Qed.

(** C5, amended.  Write size tracking: when the wrapped handle answers a
    [WriteAt] on an open handle with [n > 0] and [offset + n] (computed as
    [uint64(off) + uint64(n)], which is [off + n] for a non-negative offset)
    exceeds the handle's size, the size becomes [offset + n] and the live
    total loses the old size and gains the new one in [uint64] arithmetic:
    it changes by exactly [(offset + n) - oldSize] whenever the result is
    below [2 ^ 64], and by that amount modulo [2 ^ 64] otherwise.  When
    [n = 0] or [offset + n] does not exceed the size, the handle and the
    live total are unchanged.  No method other than [Truncate] leaves a
    handle with a smaller size than it had. *)
Theorem C5_write_size_tracking {B F : Type} `{!InnerFilePool B F} :
  (∀ (w : world B F) h f i p off b n err,
      is_open w h f i →
      inner_WriteAt i p off (base w) = (b, (n, err)) →
      ∃ w' f', WriteAt h p off w = Some (w', (n, err)) ∧
        files w' = <[h := f']> (files w) ∧
        (0 < n → size f < add64 (uint64 off) (uint64 n) →
         size f' = add64 (uint64 off) (uint64 n) ∧
         totalSize (fp w') =
           add64 (sub64 (totalSize (fp w)) (size f)) (add64 (uint64 off) (uint64 n)) ∧
         (is_uint64 (totalSize (fp w) + (add64 (uint64 off) (uint64 n) - size f)) →
          totalSize (fp w') =
            totalSize (fp w) + (add64 (uint64 off) (uint64 n) - size f))) ∧
        (n <= 0 ∨ add64 (uint64 off) (uint64 n) <= size f →
         f' = f ∧ files w' = files w ∧ totalSize (fp w') = totalSize (fp w)) ∧
        (is_int64 off → is_int64 n → 0 <= off → 0 <= n →
         add64 (uint64 off) (uint64 n) = off + n)) ∧
  (∀ o (w w' : world B F) r h f f',
      step o w = Some (w', r) →
      files w !! h = Some f → files w' !! h = Some f' → size f' < size f →
      ∃ length, o = OpTruncate h length).
Proof.
  split; [|apply @step_size_decrease].
  intros w h f i p off b n err Hopen Hin.
  pose proof Hopen as (Hh' & _). run_method Hopen. rewrite Hin, Hp. simpl.
  set (newSize := add64 (uint64 off) (uint64 n)).
  destruct (Z.ltb_spec 0 n) as [Hn|Hn];
    destruct (Z.ltb_spec (size f) newSize) as [Hsz|Hsz]; simpl.
  1: exists (mkWorld b
         (mkPool
            (mkUsage (FilesCreated (stats (fp w))) (FilesCountPeak (stats (fp w)))
               (if FilesSizeBytesPeak (stats (fp w)) <?
                   add64 (sub64 (totalSize (fp w)) (size f)) newSize
                then add64 (sub64 (totalSize (fp w)) (size f)) newSize
                else FilesSizeBytesPeak (stats (fp w)))
               (ReadsCount (stats (fp w))) (ReadsSizeBytes (stats (fp w)))
               (incr64 (WritesCount (stats (fp w))))
               (add64 (WritesSizeBytes (stats (fp w))) (uint64 n))
               (TruncatesCount (stats (fp w))))
            (add64 (sub64 (totalSize (fp w)) (size f)) newSize)
            (totalFiles (fp w)))
         (<[h := mkFile (FileReadWriter f) (pool f) newSize]> (files w))),
      (mkFile (FileReadWriter f) (pool f) newSize).
  2-4: eexists _, f.
  all: split; [reflexivity|]; simpl; split; [reflexivity|].
  all: repeat split; try lia; try (intros; by apply newSize_exact).
  all: try (intros; rewrite list_insert_id; done).
  intros Hr. rewrite add64_sub64.
  replace (totalSize (fp w) - size f + newSize)
    with (totalSize (fp w) + (newSize - size f)) by lia.
  by apply uint64_small.
Qed.

(** Five bytes accepted at offset 38 of a handle of size 40 move its size
    and the live total to 43. *)
Lemma C5_write_size_tracking_witness :
  is_open (one_open [mkAnswer None [] 5 None]) 0 (mkFile (Some 7%nat) true 40) 7%nat ∧
  ∃ w' f', WriteAt 0 [x01; x02; x03; x04; x05] 38 (one_open [mkAnswer None [] 5 None])
           = Some (w', (5, None)) ∧
    files w' = <[0%nat := f']> (files (one_open [mkAnswer None [] 5 None])) ∧
    size f' = 43 ∧ totalSize (fp w') = 43.
Proof.
  split; [apply one_open_is_open|].
  destruct (proj1 C5_write_size_tracking
              (one_open [mkAnswer None [] 5 None]) 0%nat
              (mkFile (Some 7%nat) true 40) 7%nat [x01; x02; x03; x04; x05] 38
              [] 5 None (one_open_is_open _))
    as (w' & f' & Hw & Hf & Hgrow & _); [reflexivity|].
  destruct Hgrow as (Hs & Ht & _); [reflexivity | reflexivity |].
  exists w', f'. split; [exact Hw|]. split; [exact Hf|]. split; [exact Hs | exact Ht].
Defined.

(** ** Truncation *)

(** C6 as stated fails once the sum of the sizes has passed [2 ^ 64]: after
    [sparse_trio 3] the live total has wrapped to 1 under a peak of
    [2 ^ 63 + 2]; truncating the first handle from 3 to 1 then raises the
    recorded peak to [2 ^ 64 - 1], the value the live total takes when 2 is
    taken off 1 in [uint64] arithmetic. *)
Lemma C6_counterexample :
  ∃ w rs w',
    run (sparse_trio 3) (newWorld 0%nat) = Some (w, rs) ∧
    files w !! 0%nat = Some (mkFile (Some 0%nat) true 3) ∧
    totalSize (fp w) = 1 ∧
    FilesSizeBytesPeak (stats (fp w)) = 2 ^ 63 + 2 ∧
    Truncate 0 1 w = Some (w', None) ∧
    totalSize (fp w') = 2 ^ 64 - 1 ∧
    FilesSizeBytesPeak (stats (fp w')) = 2 ^ 64 - 1.
Proof.
  eexists _, _, _. split; [vm_compute; reflexivity|].
  split; [reflexivity|]. split; [reflexivity|]. split; [reflexivity|].
  split; [vm_compute; reflexivity|]. split; reflexivity.
Qed.

(** C6, amended.  Every [Truncate] on an open handle adds one to
    [TruncatesCount], whether or not the wrapped call fails.  If the wrapped
    call succeeds the handle's size becomes the length (as a [uint64]: the
    length itself when it is not negative) and the live total loses the old
    size and gains the new one; if it fails, the handle, the live total and
    the peak are unchanged.  Truncating from [s] to a smaller length [l]
    lowers the live total by exactly [s - l] and leaves
    [FilesSizeBytesPeak] unchanged, provided the live total before the call
    is at least [s] and at most the recorded peak, as it is while the sum
    of the live sizes has stayed below [2 ^ 64]. *)
Theorem C6_truncate_bookkeeping {B F : Type} `{!InnerFilePool B F}
  (w : world B F) h f i length b err :
  is_open w h f i →
  inner_Truncate i length (base w) = (b, err) →
  ∃ w' f', Truncate h length w = Some (w', err) ∧
    files w' = <[h := f']> (files w) ∧
    TruncatesCount (stats (fp w')) = incr64 (TruncatesCount (stats (fp w))) ∧
    (is_uint64 (TruncatesCount (stats (fp w)) + 1) →
     TruncatesCount (stats (fp w')) = TruncatesCount (stats (fp w)) + 1) ∧
    (err = None →
     size f' = uint64 length ∧
     (is_int64 length → 0 <= length → size f' = length) ∧
     totalSize (fp w') = add64 (sub64 (totalSize (fp w)) (size f)) (uint64 length) ∧
     (is_int64 length → 0 <= length <= size f →
      size f <= totalSize (fp w) →
      totalSize (fp w) <= FilesSizeBytesPeak (stats (fp w)) →
      is_uint64 (totalSize (fp w)) →
      totalSize (fp w') = totalSize (fp w) - (size f - length) ∧
      FilesSizeBytesPeak (stats (fp w')) = FilesSizeBytesPeak (stats (fp w)))) ∧
    (err ≠ None →
     f' = f ∧ files w' = files w ∧ totalSize (fp w') = totalSize (fp w) ∧
     FilesSizeBytesPeak (stats (fp w')) = FilesSizeBytesPeak (stats (fp w))).
Proof.
  intros Hopen Hin. pose proof Hopen as (Hh' & _).
  run_method Hopen. rewrite Hin, Hp.
  destruct err as [e|]; simpl.
  - eexists _, f. split; [reflexivity|]. simpl.
    repeat split; try done; try (by apply uint64_small).
    by rewrite list_insert_id.
  - eexists _, _. split; [reflexivity|]. simpl.
    split; [reflexivity|]. split; [reflexivity|].
    split; [by apply uint64_small|]. split; [|done]. intros _.
    assert (is_int64 length → 0 <= length → uint64 length = length) as Hlen.
    { unfold is_int64. intros ? ?. apply uint64_small. unfold is_uint64. lia. }
    split; [reflexivity|]. split; [exact Hlen|]. split; [reflexivity|].
    intros Hl Hle Hs Hpk Hts. rewrite (Hlen Hl) by lia.
    assert (add64 (sub64 (totalSize (fp w)) (size f)) length
            = totalSize (fp w) - (size f - length)) as ->.
    { rewrite add64_sub64.
      replace (totalSize (fp w) - size f + length)
        with (totalSize (fp w) - (size f - length)) by lia.
      apply uint64_small. unfold is_uint64 in *. lia. }
    split; [reflexivity|]. ltb_cases; lia.
Qed.

(** Truncating the handle of size 40 to 10 takes 30 off a live total of 40
    and leaves the peak of 40 alone. *)
Lemma C6_truncate_bookkeeping_witness :
  is_open (one_open [mkAnswer None [] 0 None]) 0 (mkFile (Some 7%nat) true 40) 7%nat ∧
  ∃ w' (f' : statsCollectingFileReadWriter nat),
    Truncate 0 10 (one_open [mkAnswer None [] 0 None]) = Some (w', None) ∧
    size f' = 10 ∧ totalSize (fp w') = 40 - (40 - 10) ∧
    FilesSizeBytesPeak (stats (fp w')) = 40 ∧
    TruncatesCount (stats (fp w')) = 1.
Proof.
  split; [apply one_open_is_open|].
  destruct (C6_truncate_bookkeeping
              (one_open [mkAnswer None [] 0 None]) 0%nat
              (mkFile (Some 7%nat) true 40) 7%nat 10 [] None
              (one_open_is_open _))
    as (w' & f' & Hw & _ & Hc & _ & Hok & _); [reflexivity|].
  destruct (Hok eq_refl) as (_ & Hs & _ & Hshrink).
  destruct Hshrink as (Ht & Hpk); try (vm_compute; intuition discriminate).
  exists w', f'. split; [exact Hw|].
  split; [apply Hs; vm_compute; intuition discriminate|].
  split; [exact Ht|]. split; [exact Hpk | exact Hc].
Defined.

(** ** Closing *)

Lemma closes_keep_stats {B F : Type} `{!InnerFilePool B F} cs (w w' : world B F) rs :
  Forall (λ o, ∃ h, o = OpClose h) cs →
  run cs w = Some (w', rs) → stats (fp w') = stats (fp w).
Proof.
  intros Hcs. revert w rs. induction Hcs as [|o cs [h ->] _ IH]; intros w rs Hr.
  - simpl in Hr. by simplify_eq.
  - apply run_cons_inv in Hr as (w1 & r & rs' & Hs & Hr & ->).
    rewrite (IH _ _ Hr). simpl in Hs. unfold Close in Hs.
    destruct (files w !! h) as [f|]; simpl in Hs; [|done].
    destruct (FileReadWriter f) as [i|]; simpl in Hs; [|done].
    destruct (inner_Close i (base w)) as [b err].
    destruct (pool f); simpl in Hs; by simplify_eq.
Qed.

(** C7. Close bookkeeping and final state: every [Close] on an open handle
    takes one off [totalFiles] and the handle's size off [totalSize] (in
    [uint64] arithmetic, hence exactly whenever the result is not negative),
    whatever the wrapped close returns, returns that error unchanged and
    leaves every field of the statistics as it was.  After a run from a
    fresh pool in which every handle ever created has been closed,
    [totalFiles] and [totalSize] are both zero; a sequence of closes leaves
    the cumulative fields at the values they had before it. *)
Theorem C7_close_bookkeeping {B F : Type} `{!InnerFilePool B F} :
  (∀ (w : world B F) h f i b err,
      is_open w h f i →
      inner_Close i (base w) = (b, err) →
      ∃ w', Close h w = Some (w', err) ∧
        totalFiles (fp w') = decr64 (totalFiles (fp w)) ∧
        totalSize (fp w') = sub64 (totalSize (fp w)) (size f) ∧
        stats (fp w') = stats (fp w) ∧
        files w' = <[h := mkFile None false (size f)]> (files w) ∧
        (is_uint64 (totalFiles (fp w) - 1) →
         totalFiles (fp w') = totalFiles (fp w) - 1) ∧
        (is_uint64 (totalSize (fp w) - size f) →
         totalSize (fp w') = totalSize (fp w) - size f)) ∧
  (∀ (b : B) l (w : world B F) rs,
      run l (newWorld b) = Some (w, rs) →
      Forall (λ f, pool f = false) (files w) →
      totalFiles (fp w) = 0 ∧ totalSize (fp w) = 0) ∧
  (∀ cs (w w' : world B F) rs,
      Forall (λ o, ∃ h, o = OpClose h) cs →
      run cs w = Some (w', rs) →
      stats (fp w') = stats (fp w)).
Proof.
  split; [|split; [|apply @closes_keep_stats]].
  - intros w h f i b err Hopen Hin. run_method Hopen. rewrite Hin, Hp.
    eexists. split; [reflexivity|]. simpl.
    repeat split; apply uint64_small.
  - intros b l w rs Hr Hclosed.
    destruct (run_counters_modular _ _ _ _ Hr (newWorld_counters_modular b))
      as [-> ->].
    unfold liveFiles, liveSize. rewrite !sum_with_zero; [done|..].
    + eapply Forall_impl; [exact Hclosed|]. intros f Hf.
      by rewrite live_size_eq, Hf.
    + eapply Forall_impl; [exact Hclosed|]. intros f Hf.
      by rewrite live_one_eq, Hf.
Qed.

(** A close that fails still releases the handle of size 40: the live
    counters drop to zero and the error comes back. *)
Lemma C7_close_bookkeeping_witness :
  is_open (one_open [mkAnswer None [] 0 (Some "stale handle"%string)]) 0
          (mkFile (Some 7%nat) true 40) 7%nat ∧
  ∃ w', Close 0 (one_open [mkAnswer None [] 0 (Some "stale handle"%string)])
        = Some (w', Some "stale handle"%string) ∧
    totalFiles (fp w') = 0 ∧ totalSize (fp w') = 0 ∧
    stats (fp w') = mkUsage 1 1 40 0 0 1 40 0.
Proof.
  split; [apply one_open_is_open|].
  destruct (proj1 C7_close_bookkeeping
              (one_open [mkAnswer None [] 0 (Some "stale handle"%string)]) 0%nat
              (mkFile (Some 7%nat) true 40) 7%nat [] (Some "stale handle"%string)
              (one_open_is_open _))
    as (w' & Hw & Hn & Hz & Hst & _); [reflexivity|].
  exists w'. split; [exact Hw|]. split; [exact Hn|]. split; [exact Hz | exact Hst].
Defined.

(** ** Creation *)

(** C8. Creation-failure atomicity: when the wrapped pool's [NewFile]
    returns an error, the instrumented [NewFile] returns no handle and that
    same error, and the pool and the heap of handles are exactly as before;
    when it succeeds, [FilesCreated] and [totalFiles] each go up by one (in
    [uint64] arithmetic, hence exactly below [2 ^ 64]), [FilesCountPeak] is
    raised to the new [totalFiles] if it was smaller, nothing else changes,
    and the handle returned is new, wraps the inner handle and has size
    zero. *)
Theorem C8_creation {B F : Type} `{!InnerFilePool B F} (w : world B F) b f err :
  inner_NewFile (base w) = (b, (f, err)) →
  (err ≠ None →
   NewFile w = Some (mkWorld b (fp w) (files w), (None, err))) ∧
  (err = None →
   ∃ w', NewFile w = Some (w', (Some (length (files w)), None)) ∧
     base w' = b ∧
     files w' = files w ++ [mkFile f true 0] ∧
     files w' !! length (files w) = Some (mkFile f true 0) ∧
     FilesCreated (stats (fp w')) = incr64 (FilesCreated (stats (fp w))) ∧
     totalFiles (fp w') = incr64 (totalFiles (fp w)) ∧
     FilesCountPeak (stats (fp w')) =
       Z.max (FilesCountPeak (stats (fp w))) (totalFiles (fp w')) ∧
     (is_uint64 (FilesCreated (stats (fp w)) + 1) →
      FilesCreated (stats (fp w')) = FilesCreated (stats (fp w)) + 1) ∧
     (is_uint64 (totalFiles (fp w) + 1) →
      totalFiles (fp w') = totalFiles (fp w) + 1) ∧
     totalSize (fp w') = totalSize (fp w) ∧
     FilesSizeBytesPeak (stats (fp w')) = FilesSizeBytesPeak (stats (fp w)) ∧
     ReadsCount (stats (fp w')) = ReadsCount (stats (fp w)) ∧
     ReadsSizeBytes (stats (fp w')) = ReadsSizeBytes (stats (fp w)) ∧
     WritesCount (stats (fp w')) = WritesCount (stats (fp w)) ∧
     WritesSizeBytes (stats (fp w')) = WritesSizeBytes (stats (fp w)) ∧
     TruncatesCount (stats (fp w')) = TruncatesCount (stats (fp w))).
Proof.
  intros Hin. unfold NewFile. rewrite Hin. split.
  - intros Herr. by destruct err.
  - intros ->. eexists. split; [reflexivity|]. simpl.
    repeat split; try (by apply uint64_small).
    + by rewrite lookup_app_r, Nat.sub_diag.
    + ltb_cases; lia.
Qed.

(** A pool whose creation call fails with "quota exceeded" is left exactly
    as it was, and the caller gets that error and no handle. *)
Lemma C8_creation_witness :
  inner_NewFile (base (one_open [mkAnswer (Some 9%nat) [] 0 (Some "quota exceeded"%string)]))
    = ([], (Some 9%nat, Some "quota exceeded"%string)) ∧
  NewFile (one_open [mkAnswer (Some 9%nat) [] 0 (Some "quota exceeded"%string)])
    = Some (one_open [], (None, Some "quota exceeded"%string)).
Proof.
  split; [reflexivity|].
  refine (proj1 (C8_creation
                   (one_open [mkAnswer (Some 9%nat) [] 0 (Some "quota exceeded"%string)])
                   [] (Some 9%nat) (Some "quota exceeded"%string) _) _);
    [reflexivity | discriminate].
Defined.

(** ** The state invariant *)

(** C3 as stated fails once the sum of the live sizes passes [2 ^ 64],
    which three truncations to lengths an [int64] can name achieve.  After
    [sparse_trio 2] the three live handles hold [2 ^ 64] bytes in all while
    [totalSize] has wrapped to 0, under a peak of [2 ^ 63 + 1]; closing the
    first handle then leaves [totalSize] at [2 ^ 64 - 2], above the peak. *)
Lemma C3_counterexample :
  ∃ w rs w' rs',
    run (sparse_trio 2) (newWorld 0%nat) = Some (w, rs) ∧
    liveSize w = 2 ^ 64 ∧ totalSize (fp w) = 0 ∧
    run (sparse_trio 2 ++ [OpClose 0]) (newWorld 0%nat) = Some (w', rs') ∧
    totalSize (fp w') = 2 ^ 64 - 2 ∧
    FilesSizeBytesPeak (stats (fp w')) = 2 ^ 63 + 1 ∧
    ¬ pool_invariant w'.
Proof.
  eexists _, _, _, _. split; [vm_compute; reflexivity|].
  split; [reflexivity|]. split; [reflexivity|].
  split; [vm_compute; reflexivity|].
  split; [reflexivity|]. split; [reflexivity|].
  intros (_ & _ & _ & Hpk). vm_compute in Hpk. by apply Hpk.
Qed.

(** C3, amended.  After every sequence of [NewFile], [ReadAt], [WriteAt],
    [Truncate] and [Close] calls on a fresh pool, [totalFiles] and
    [totalSize] equal the number of handles created and not yet closed and
    the sum of their sizes modulo [2 ^ 64], each exactly whenever the
    quantity it tracks is below [2 ^ 64].  As long as the number of live
    handles has stayed below [2 ^ 64] after every call (as it has whenever
    fewer than [2 ^ 64] handles were ever created), whatever the sizes,
    [totalFiles] is that number, [FilesCountPeak >= totalFiles] and
    [FilesCountPeak] is at least every value [totalFiles] had on the way.
    As long as the sum of the live sizes has stayed below [2 ^ 64] after
    every call, [totalSize] is that sum, [FilesSizeBytesPeak >= totalSize]
    and [FilesSizeBytesPeak] is at least every value [totalSize] had on the
    way.  No call ever lowers a peak. *)
Theorem C3_pool_invariant {B F : Type} `{!InnerFilePool B F}
  (b : B) l (w : world B F) rs :
  run l (newWorld b) = Some (w, rs) →
  (totalFiles (fp w) = uint64 (liveFiles w) ∧
   totalSize (fp w) = uint64 (liveSize w)) ∧
  (liveFiles w < 2 ^ 64 → totalFiles (fp w) = liveFiles w) ∧
  (liveSize w < 2 ^ 64 → totalSize (fp w) = liveSize w) ∧
  ((∀ l1 l2 w1 rs1,
       l = l1 ++ l2 → run l1 (newWorld b) = Some (w1, rs1) →
       liveFiles w1 < 2 ^ 64) →
   totalFiles (fp w) = liveFiles w ∧
   totalFiles (fp w) <= FilesCountPeak (stats (fp w)) ∧
   ∀ l1 l2 w1 rs1,
     l = l1 ++ l2 → run l1 (newWorld b) = Some (w1, rs1) →
     totalFiles (fp w1) <= FilesCountPeak (stats (fp w))) ∧
  (Z.of_nat (length (files w)) < 2 ^ 64 →
   ∀ l1 l2 w1 rs1,
     l = l1 ++ l2 → run l1 (newWorld b) = Some (w1, rs1) →
     liveFiles w1 < 2 ^ 64) ∧
  ((∀ l1 l2 w1 rs1,
       l = l1 ++ l2 → run l1 (newWorld b) = Some (w1, rs1) →
       liveSize w1 < 2 ^ 64) →
   totalSize (fp w) = liveSize w ∧
   totalSize (fp w) <= FilesSizeBytesPeak (stats (fp w)) ∧
   ∀ l1 l2 w1 rs1,
     l = l1 ++ l2 → run l1 (newWorld b) = Some (w1, rs1) →
     totalSize (fp w1) <= FilesSizeBytesPeak (stats (fp w))) ∧
  (∀ o w' r,
      step o w = Some (w', r) →
      FilesCountPeak (stats (fp w)) <= FilesCountPeak (stats (fp w')) ∧
      FilesSizeBytesPeak (stats (fp w)) <= FilesSizeBytesPeak (stats (fp w'))).
Proof.
  intros Hr.
  pose proof (run_counters_modular _ _ _ _ Hr (newWorld_counters_modular b)) as Hmod.
  pose proof (run_sizes_ok _ _ _ _ Hr (newWorld_sizes_ok b)) as Hsz.
  assert (liveFiles w < 2 ^ 64 → totalFiles (fp w) = liveFiles w) as Hn.
  { intros Hlt. destruct Hmod as [-> _].
    pose proof (liveFiles_le_length w). apply uint64_small. unfold is_uint64. lia. }
  assert (liveSize w < 2 ^ 64 → totalSize (fp w) = liveSize w) as Hz.
  { intros Hlt. destruct Hmod as [_ ->].
    pose proof (liveSize_nonneg w Hsz). apply uint64_small. unfold is_uint64. lia. }
  assert (∀ (P : world B F → Prop),
             (∀ l1 l2 w1 rs1,
                 l = l1 ++ l2 → run l1 (newWorld b) = Some (w1, rs1) → P w1) →
             ∀ l1 l2 w1 rs1,
               l = l1 ++ l2 → run l1 (newWorld b) = Some (w1, rs1) →
               ∀ l3 l4 w3 rs3,
                 l1 = l3 ++ l4 → run l3 (newWorld b) = Some (w3, rs3) → P w3)
    as Hsub.
  { intros P HP l1 l2 w1 rs1 -> _ l3 l4 w3 rs3 -> Hr3.
    apply (HP l3 (l4 ++ l2) w3 rs3); [by rewrite app_assoc | done]. }
  split; [exact Hmod|]. split; [exact Hn|]. split; [exact Hz|].
  split; [|split; [|split]].
  - intros Hrange. split; [|split].
    + apply Hn. by apply (Hrange l [] w rs); [rewrite app_nil_r|].
    + by apply (run_count_peak _ _ _ _ Hr).
    + intros l1 l2 w1 rs1 Hl Hr1.
      assert (totalFiles (fp w1) <= FilesCountPeak (stats (fp w1))) as Hpk1.
      { apply (run_count_peak _ _ _ _ Hr1); [done|done|].
        exact (Hsub _ Hrange l1 l2 w1 rs1 Hl Hr1). }
      subst l. destruct (run_app_inv _ _ _ _ _ _ _ Hr Hr1) as [rs2 Hr2].
      pose proof (run_peaks_mono _ _ _ _ Hr2). lia.
  - intros Hlen l1 l2 w1 rs1 -> Hr1.
    destruct (run_app_inv _ _ _ _ _ _ _ Hr Hr1) as [rs2 Hr2].
    pose proof (run_length_le _ _ _ _ Hr2).
    pose proof (liveFiles_le_length w1). lia.
  - intros Hrange. split; [|split].
    + apply Hz. by apply (Hrange l [] w rs); [rewrite app_nil_r|].
    + by apply (run_size_peak _ _ _ _ Hr); [apply newWorld_sizes_ok|..].
    + intros l1 l2 w1 rs1 Hl Hr1.
      assert (totalSize (fp w1) <= FilesSizeBytesPeak (stats (fp w1))) as Hpk1.
      { apply (run_size_peak _ _ _ _ Hr1); [apply newWorld_sizes_ok|done|done|].
        exact (Hsub _ Hrange l1 l2 w1 rs1 Hl Hr1). }
      subst l. destruct (run_app_inv _ _ _ _ _ _ _ Hr Hr1) as [rs2 Hr2].
      pose proof (run_peaks_mono _ _ _ _ Hr2). lia.
  - intros o w' r. apply step_peaks_mono.
Qed.

(** On the run that breaks the size half, [sparse_trio 2] followed by the
    close of the first handle, fewer than [2 ^ 64] handles were created, so
    the count half still holds: two handles are live, [totalFiles] is 2 and
    it is below its peak. *)
Lemma C3_pool_invariant_witness :
  let w :=
    mkWorld 3%nat
      (mkPool (mkUsage 3 3 (2 ^ 63 + 1) 0 0 0 0 3) (2 ^ 64 - 2) 2)
      [mkFile None false 2; mkFile (Some 1%nat) true (2 ^ 63 - 1);
       mkFile (Some 2%nat) true (2 ^ 63 - 1)] in
  let rs :=
    [RNewFile (Some 0%nat) None; RNewFile (Some 1%nat) None;
     RNewFile (Some 2%nat) None; RTruncate None; RTruncate None;
     RTruncate None; RClose None] in
  run (sparse_trio 2 ++ [OpClose 0]) (newWorld 0%nat) = Some (w, rs) ∧
  totalFiles (fp w) = liveFiles w ∧
  totalFiles (fp w) <= FilesCountPeak (stats (fp w)).
Proof.
  intros w rs.
  assert (run (sparse_trio 2 ++ [OpClose 0]) (newWorld 0%nat) = Some (w, rs))
    as Hr by (vm_compute; reflexivity).
  split; [exact Hr|].
  destruct (C3_pool_invariant _ _ _ _ Hr) as (_ & _ & _ & Hcount & Hlen & _).
  destruct Hcount as (Hn & Hpk & _); [|split; [exact Hn | exact Hpk]].
  apply Hlen. reflexivity.
Defined.

(** ** A scenario *)

(** C9. End-to-end scenario on a wrapped pool that accepts every byte:
    from a fresh pool, create handles 0 and 1, write 100 bytes to the first
    and 50 bytes to the second at offset 0, truncate the first to 10 and
    close both.  The live total is 150 after the writes and 60 after the
    truncation; at the end [WritesCount = 2], [WritesSizeBytes = 150],
    [TruncatesCount = 1], [FilesCountPeak = 2],
    [FilesSizeBytesPeak >= 150] and [totalFiles = 0]. *)
Theorem C9_scenario (pa pb : list byte) :
  length pa = 100%nat → length pb = 50%nat →
  ∃ w1 rs1 w2 rs2 w3 rs3,
    run [OpNewFile; OpNewFile; OpWriteAt 0 pa 0; OpWriteAt 1 pb 0] (newWorld 0%nat)
      = Some (w1, rs1) ∧
    totalSize (fp w1) = 150 ∧
    run [OpTruncate 0 10] w1 = Some (w2, rs2) ∧
    totalSize (fp w2) = 60 ∧
    run [OpClose 0; OpClose 1] w2 = Some (w3, rs3) ∧
    WritesCount (stats (fp w3)) = 2 ∧
    WritesSizeBytes (stats (fp w3)) = 150 ∧
    TruncatesCount (stats (fp w3)) = 1 ∧
    FilesCountPeak (stats (fp w3)) = 2 ∧
    FilesSizeBytesPeak (stats (fp w3)) >= 150 ∧
    totalFiles (fp w3) = 0 ∧
    totalSize (fp w3) = 0.
Proof.
  intros Ha Hb. eexists _, _, _, _, _, _.
  split.
  { eapply run_cons; [vm_compute; reflexivity|].
    eapply run_cons; [vm_compute; reflexivity|].
    eapply run_cons.
    { unfold step, WriteAt. simpl. rewrite Ha. vm_compute. reflexivity. }
    eapply run_cons; [|reflexivity].
    unfold step, WriteAt. simpl. rewrite Hb. vm_compute. reflexivity. }
  split; [reflexivity|].
  split; [vm_compute; reflexivity|].
  split; [reflexivity|].
  split; [vm_compute; reflexivity|].
  repeat split; done.
Qed.

(** The scenario on two buffers of zeroes. *)
Lemma C9_scenario_witness :
  length (replicate 100 x00) = 100%nat ∧ length (replicate 50 x00) = 50%nat ∧
  ∃ w1 rs1 w2 rs2 w3 rs3,
    run [OpNewFile; OpNewFile;
         OpWriteAt 0 (replicate 100 x00) 0; OpWriteAt 1 (replicate 50 x00) 0]
        (newWorld 0%nat) = Some (w1, rs1) ∧
    totalSize (fp w1) = 150 ∧
    run [OpTruncate 0 10] w1 = Some (w2, rs2) ∧
    totalSize (fp w2) = 60 ∧
    run [OpClose 0; OpClose 1] w2 = Some (w3, rs3) ∧
    WritesCount (stats (fp w3)) = 2 ∧
    WritesSizeBytes (stats (fp w3)) = 150 ∧
    TruncatesCount (stats (fp w3)) = 1 ∧
    FilesCountPeak (stats (fp w3)) = 2 ∧
    FilesSizeBytesPeak (stats (fp w3)) >= 150 ∧
    totalFiles (fp w3) = 0 ∧
    totalSize (fp w3) = 0.
Proof.
  split; [reflexivity|]. split; [reflexivity|].
  exact (C9_scenario (replicate 100 x00) (replicate 50 x00) eq_refl eq_refl).
Defined.

(** ** The executor *)

Section ExecutorProperties.
Context {B F : Type} `{!InnerFilePool B F}.
Context {Args Any Outcome : Type}.
Variable anypb_New : FilePoolResourceUsage → Any + string.
Variable StatusWrap : string → string → string.

(** C2. Executor annotation never fails the action: [Execute] returns the
    response of the inner executor, run on a fresh instrumented pool.  If
    packing the final statistics succeeds, that response comes back with
    exactly one entry, the packed statistics, appended to its auxiliary
    metadata and nothing else changed; if packing fails, it comes back with
    its result (metadata included) unchanged and one descriptive error
    attached.  In both cases what the inner executor reported about the
    action is untouched. *)
Theorem C2_annotation_never_fails_the_action
  (buildExecutor : BuildExecutor (B:=B) (F:=F) (Args:=Args) (Any:=Any) (Outcome:=Outcome))
  args filePool w response :
  buildExecutor args (newWorld filePool) = (w, response) →
  (∀ resourceUsage,
      anypb_New (stats (fp w)) = inl resourceUsage →
      ∃ response',
        Execute anypb_New StatusWrap buildExecutor args filePool = (base w, response') ∧
        AuxiliaryMetadata (ExecutionMetadata (Result response')) =
          AuxiliaryMetadata (ExecutionMetadata (Result response)) ++ [resourceUsage] ∧
        executed (Result response') = executed (Result response) ∧
        attached response' = attached response) ∧
  (∀ err,
      anypb_New (stats (fp w)) = inr err →
      ∃ response',
        Execute anypb_New StatusWrap buildExecutor args filePool = (base w, response') ∧
        response' =
          attachErrorToExecuteResponse response
            (StatusWrap err "Failed to marshal file pool resource usage") ∧
        Result response' = Result response ∧
        attached response' =
          attached response
            ++ [StatusWrap err "Failed to marshal file pool resource usage"]).
Proof.
  intros Hbe. unfold Execute. rewrite Hbe. split.
  - intros resourceUsage ->. eexists. split; [reflexivity|]. done.
  - intros err ->. eexists. split; [reflexivity|]. done.
Qed.

End ExecutorProperties.

Lemma demoExecutor_run :
  demoExecutor () (newWorld 0%nat)
    = (demoWorld, mkResponse (mkResult (mkMetadata []) 0) []).
Proof. vm_compute. reflexivity. Defined.

(** With a marshaller that succeeds the response carries the statistics;
    with one that fails it carries the error instead, and the exit code is
    the executor's in both cases. *)
Lemma C2_annotation_never_fails_the_action_witness :
  (∃ response',
      Execute inl (λ e m, (m ++ ": " ++ e)%string) demoExecutor () 0%nat
        = (1%nat, response') ∧
      AuxiliaryMetadata (ExecutionMetadata (Result response'))
        = [mkUsage 1 1 2 0 0 1 2 0] ∧
      executed (Result response') = 0 ∧
      attached response' = []) ∧
  (∃ response',
      Execute (λ _, inr "too large"%string) (λ e m, (m ++ ": " ++ e)%string)
              demoExecutor () 0%nat
        = (1%nat, response') ∧
      response' =
        mkResponse (mkResult (mkMetadata []) 0)
          ["Failed to marshal file pool resource usage: too large"%string] ∧
      Result response' = mkResult (mkMetadata []) 0 ∧
      attached response' =
        ["Failed to marshal file pool resource usage: too large"%string]).
Proof.
  split.
  - exact (proj1 (C2_annotation_never_fails_the_action
                    inl (λ e m, (m ++ ": " ++ e)%string) demoExecutor () 0%nat
                    demoWorld _ demoExecutor_run) _ eq_refl).
  - exact (proj2 (C2_annotation_never_fails_the_action
                    (λ _, inr "too large"%string)
                    (λ e m, (m ++ ": " ++ e)%string) demoExecutor () 0%nat
                    demoWorld _ demoExecutor_run) _ eq_refl).
Defined.

(** * Further properties of the decorators *)

(** ** Handles do not interfere *)

Section Frames.
Context {B F : Type} `{!InnerFilePool B F}.

(** A call leaves alone every handle it is not made on, and the heap grows
    by one exactly when a creation returns a handle. *)
Lemma step_frame o (w w' : world B F) r :
  step o w = Some (w', r) →
  (∀ h f, target o ≠ Some h → files w !! h = Some f → files w' !! h = Some f) ∧
  Z.of_nat (length (files w')) = Z.of_nat (length (files w)) + created r.
Proof.
  intros Hs. step_cases Hs; simpl; split; try lia.
  all: try (intros h' f' Hne Hf'; try done).
  all: try (rewrite list_lookup_insert_ne by congruence; done).
  all: rewrite ?length_insert; try lia.
  - by apply lookup_app_l_Some.
  - rewrite length_app. simpl. lia.
Qed.

(** A call that returns is made on an open handle: none returns on a
    handle that has lost its inner handle. *)
Lemma step_not_on_closed o (w w' : world B F) r h f :
  step o w = Some (w', r) →
  files w !! h = Some f → FileReadWriter f = None → target o ≠ Some h.
Proof.
  intros Hs Hf Hnil Ht. pose proof (step_open_inv _ _ _ _ Hs) as Hopen.
  destruct o; simpl in Ht; simplify_eq;
    destruct Hopen as (f' & i & Hf' & Hi & _); congruence.
Qed.

Lemma run_frame l (w w' : world B F) rs h f :
  run l w = Some (w', rs) →
  Forall (λ o, target o ≠ Some h) l →
  files w !! h = Some f → files w' !! h = Some f.
Proof.
  revert w rs. induction l as [|o l IH]; intros w rs Hr Hl Hf.
  - simpl in Hr. by simplify_eq.
  - apply run_cons_inv in Hr as (w1 & r & rs' & Hs & Hr & ->).
    apply Forall_cons in Hl as [Ho Hl].
    apply (IH _ _ Hr Hl). by apply (proj1 (step_frame _ _ _ _ Hs)).
Qed.

Lemma run_length l (w w' : world B F) rs :
  run l w = Some (w', rs) →
  Z.of_nat (length (files w')) = Z.of_nat (length (files w)) + tally created rs.
Proof.
  revert w rs. induction l as [|o l IH]; intros w rs Hr.
  - simpl in Hr. simplify_eq. simpl. lia.
  - apply run_cons_inv in Hr as (w1 & r & rs' & Hs & Hr & ->).
    rewrite (IH _ _ Hr), (proj2 (step_frame _ _ _ _ Hs)). simpl. lia.
Qed.

Lemma run_not_on_closed l (w w' : world B F) rs h f :
  run l w = Some (w', rs) →
  files w !! h = Some f → FileReadWriter f = None →
  Forall (λ o, target o ≠ Some h) l.
Proof.
  revert w rs. induction l as [|o l IH]; intros w rs Hr Hf Hnil; [constructor|].
  apply run_cons_inv in Hr as (w1 & r & rs' & Hs & Hr & ->).
  pose proof (step_not_on_closed _ _ _ _ _ _ Hs Hf Hnil) as Ho.
  constructor; [done|].
  apply (IH _ _ Hr); [|done]. by apply (proj1 (step_frame _ _ _ _ Hs)).
Qed.

(** The methods on a handle without inner handle. *)
Lemma methods_on_closed (w : world B F) h f :
  files w !! h = Some f → FileReadWriter f = None →
  (∀ p off, ReadAt h p off w = None) ∧
  (∀ p off, WriteAt h p off w = None) ∧
  (∀ length, Truncate h length w = None) ∧
  Close h w = None.
Proof.
  intros Hf Hnil. unfold ReadAt, WriteAt, Truncate, Close.
  rewrite Hf. simpl. rewrite Hnil. done.
Qed.

End Frames.

(** X1. Use after close: once [Close] has returned on a handle, whatever the
    wrapped close answered, the handle stays as [Close] left it through
    every later run of calls on the pool, no call of such a run is made on
    it, and each of [ReadAt], [WriteAt], [Truncate] and a second [Close] on
    it panics without touching any counter; a handle is therefore released
    from the live counters at most once. *)
Theorem X1_closed_handle_stays_closed {B F : Type} `{!InnerFilePool B F}
  (w w1 w2 : world B F) h err l rs :
  Close h w = Some (w1, err) →
  run l w1 = Some (w2, rs) →
  Forall (λ o, target o ≠ Some h) l ∧
  files w2 !! h = files w1 !! h ∧
  (∀ p off, ReadAt h p off w2 = None) ∧
  (∀ p off, WriteAt h p off w2 = None) ∧
  (∀ length, Truncate h length w2 = None) ∧
  Close h w2 = None.
Proof.
  intros Hc Hr.
  assert (∃ f, files w1 !! h = Some f ∧ FileReadWriter f = None) as (f & Hf & Hnil).
  { unfold Close in Hc.
    destruct (files w !! h) as [f|] eqn:Hh; simpl in Hc; [|done].
    destruct (FileReadWriter f) as [i|]; simpl in Hc; [|done].
    destruct (inner_Close i (base w)) as [b e].
    destruct (pool f); simpl in Hc; [|done]. simplify_eq. simpl.
    exists (mkFile None false (size f)). split; [|done].
    apply list_lookup_insert_eq. by eapply lookup_lt_Some. }
  pose proof (run_not_on_closed _ _ _ _ _ _ Hr Hf Hnil) as Hl.
  pose proof (run_frame _ _ _ _ _ _ Hr Hl Hf) as Hf2.
  split; [done|]. split; [congruence|].
  by apply (methods_on_closed w2 h f).
Qed.

(** The handle of [one_open] is closed with an error, another file is
    created, and a second close of the first handle panics. *)
Lemma X1_closed_handle_stays_closed_witness :
  Close 0 (one_open [mkAnswer None [] 0 (Some "stale handle"%string);
                     mkAnswer (Some 8%nat) [] 0 None])
    = Some (mkWorld [mkAnswer (Some 8%nat) [] 0 None]
              (mkPool (mkUsage 1 1 40 0 0 1 40 0) 0 0)
              [mkFile None false 40],
            Some "stale handle"%string) ∧
  run [OpNewFile]
      (mkWorld [mkAnswer (Some 8%nat) [] 0 None]
         (mkPool (mkUsage 1 1 40 0 0 1 40 0) 0 0)
         [mkFile None false 40])
    = Some (mkWorld [] (mkPool (mkUsage 2 1 40 0 0 1 40 0) 0 1)
              [mkFile None false 40; mkFile (Some 8%nat) true 0],
            [RNewFile (Some 1%nat) None]) ∧
  Close 0 (mkWorld ([] : list answer) (mkPool (mkUsage 2 1 40 0 0 1 40 0) 0 1)
             [mkFile None false 40; mkFile (Some 8%nat) true 0])
    = None.
Proof.
  assert (Close 0 (one_open [mkAnswer None [] 0 (Some "stale handle"%string);
                             mkAnswer (Some 8%nat) [] 0 None])
          = Some (mkWorld [mkAnswer (Some 8%nat) [] 0 None]
                    (mkPool (mkUsage 1 1 40 0 0 1 40 0) 0 0)
                    [mkFile None false 40],
                  Some "stale handle"%string)) as Hc by reflexivity.
  assert (run [OpNewFile]
              (mkWorld [mkAnswer (Some 8%nat) [] 0 None]
                 (mkPool (mkUsage 1 1 40 0 0 1 40 0) 0 0)
                 [mkFile None false 40])
          = Some (mkWorld [] (mkPool (mkUsage 2 1 40 0 0 1 40 0) 0 1)
                    [mkFile None false 40; mkFile (Some 8%nat) true 0],
                  [RNewFile (Some 1%nat) None])) as Hr by reflexivity.
  split; [exact Hc|]. split; [exact Hr|].
  exact (proj2 (proj2 (proj2 (proj2 (proj2
    (X1_closed_handle_stays_closed _ _ _ _ _ _ _ Hc Hr)))))).
Defined.

(** X2. Handles do not interfere: over any run none of whose calls is made
    on handle [h], the record of [h] (inner handle, back pointer and size)
    is what it was, whatever is created, read, written, truncated or closed
    elsewhere; and the heap never loses a handle: it grows by exactly the
    number of creations that returned one. *)
Theorem X2_other_handles_untouched {B F : Type} `{!InnerFilePool B F}
  l (w w' : world B F) rs :
  run l w = Some (w', rs) →
  (∀ h f, Forall (λ o, target o ≠ Some h) l →
          files w !! h = Some f → files w' !! h = Some f) ∧
  Z.of_nat (length (files w')) = Z.of_nat (length (files w)) + tally created rs.
Proof.
  intros Hr. split.
  - intros h f Hl Hf. by apply (run_frame _ _ _ _ _ _ Hr Hl Hf).
  - exact (run_length _ _ _ _ Hr).
Qed.

(** Writing to and closing a second handle leaves the first one, of size
    40, as it was. *)
Lemma X2_other_handles_untouched_witness :
  let w' :=
    mkWorld ([] : list answer) (mkPool (mkUsage 2 2 42 0 0 2 42 0) 40 1)
      [mkFile (Some 7%nat) true 40; mkFile None false 2] in
  run [OpNewFile; OpWriteAt 1 [x01; x02] 0; OpClose 1]
      (one_open [mkAnswer (Some 8%nat) [] 0 None; mkAnswer None [] 2 None;
                 mkAnswer None [] 0 None])
    = Some (w', [RNewFile (Some 1%nat) None; RWriteAt 2 None; RClose None]) ∧
  files w' !! 0%nat = Some (mkFile (Some 7%nat) true 40) ∧
  Z.of_nat (length (files w')) = 1 + 1.
Proof.
  intros w'.
  assert (run [OpNewFile; OpWriteAt 1 [x01; x02] 0; OpClose 1]
              (one_open [mkAnswer (Some 8%nat) [] 0 None; mkAnswer None [] 2 None;
                         mkAnswer None [] 0 None])
          = Some (w', [RNewFile (Some 1%nat) None; RWriteAt 2 None; RClose None]))
    as Hr by reflexivity.
  split; [exact Hr|].
  destruct (X2_other_handles_untouched _ _ _ _ Hr) as [Hf Hlen].
  split; [|exact Hlen].
  apply Hf; [|reflexivity].
  repeat constructor; discriminate.
Defined.

(** ** Counters over whole runs *)

Section Tallies.
Context {B F : Type} `{!InnerFilePool B F}.

(** A counter that every step moves by [g] of the step's result holds the
    tally of [g] at the end of a run. *)
Lemma run_tally (c : FilePoolResourceUsage → Z) (g : result → Z) :
  (∀ o (w w' : world B F) r,
      step o w = Some (w', r) → is_uint64 (c (stats (fp w))) →
      c (stats (fp w')) = uint64 (c (stats (fp w)) + g r)) →
  ∀ l (w w' : world B F) rs,
    run l w = Some (w', rs) → is_uint64 (c (stats (fp w))) →
    c (stats (fp w')) = uint64 (c (stats (fp w)) + tally g rs).
Proof.
  intros Hstep l. induction l as [|o l IH]; intros w w' rs Hr Hw.
  - simpl in Hr. simplify_eq. simpl. rewrite Z.add_0_r. by rewrite uint64_small.
  - apply run_cons_inv in Hr as (w1 & r & rs' & Hs & Hr & ->).
    pose proof (Hstep _ _ _ _ Hs Hw) as H1.
    assert (is_uint64 (c (stats (fp w1)))) as Hw1
      by (rewrite H1; apply uint64_range).
    rewrite (IH _ _ _ Hr Hw1), H1. simpl. unfold uint64.
    rewrite Zplus_mod_idemp_l. f_equal. lia.
Qed.

Lemma tally_count_bounds (g : result → Z) rs :
  (∀ r, 0 <= g r <= 1) → 0 <= tally g rs <= Z.of_nat (length rs).
Proof.
  intros Hg. induction rs as [|r rs IH]; simpl; [lia|].
  specialize (Hg r). lia.
Qed.

End Tallies.

(** Each step moves the cumulative counter named by [c] by [g] of its
    result. *)
Ltac counter_step :=
  let Hs := fresh "Hs" in
  let Hu := fresh "Hu" in
  intros ? ? ? ? Hs Hu; step_cases Hs; simpl;
  rewrite ?Z.add_0_r, ?add64_uint64_r; try reflexivity;
  symmetry; by apply uint64_small.

(** X3. Files created: after any run on a fresh pool, [FilesCreated] is the
    number of handles the pool has handed out, which is the number of
    creations that returned a handle (failed creations do not count and no
    other method touches it); the equality is that of [uint64], hence exact
    for fewer than [2 ^ 64] handles. *)
Theorem X3_files_created_counts_handles {B F : Type} `{!InnerFilePool B F}
  (b : B) l (w : world B F) rs :
  run l (newWorld b) = Some (w, rs) →
  Z.of_nat (length (files w)) = tally created rs ∧
  FilesCreated (stats (fp w)) = uint64 (Z.of_nat (length (files w))) ∧
  (Z.of_nat (length (files w)) < 2 ^ 64 →
   FilesCreated (stats (fp w)) = Z.of_nat (length (files w))).
Proof.
  intros Hr.
  pose proof (run_length _ _ _ _ Hr) as Hlen. simpl in Hlen.
  assert (FilesCreated (stats (fp w)) = uint64 (Z.of_nat (length (files w)))) as Hc.
  { rewrite Hlen.
    apply (run_tally FilesCreated created) with (l := l) (w := newWorld b);
      [counter_step | done | done]. }
  split; [lia|]. split; [done|].
  intros Hlt. rewrite Hc. apply uint64_small. unfold is_uint64. lia.
Qed.

(** Two creations, the second of which fails, leave one handle and
    [FilesCreated = 1]. *)
Lemma X3_files_created_counts_handles_witness :
  let w :=
    mkWorld ([] : list answer) (mkPool (mkUsage 1 1 0 0 0 0 0 0) 0 1)
      [mkFile (Some 8%nat) true 0] in
  run [OpNewFile; OpNewFile]
      (newWorld [mkAnswer (Some 8%nat) [] 0 None;
                 mkAnswer None [] 0 (Some "quota exceeded"%string)])
    = Some (w, [RNewFile (Some 0%nat) None;
                RNewFile None (Some "quota exceeded"%string)]) ∧
  Z.of_nat (length (files w)) = 1 ∧
  FilesCreated (stats (fp w)) = 1.
Proof.
  intros w.
  assert (run [OpNewFile; OpNewFile]
              (newWorld [mkAnswer (Some 8%nat) [] 0 None;
                         mkAnswer None [] 0 (Some "quota exceeded"%string)])
          = Some (w, [RNewFile (Some 0%nat) None;
                      RNewFile None (Some "quota exceeded"%string)]))
    as Hr by reflexivity.
  split; [exact Hr|].
  destruct (X3_files_created_counts_handles _ _ _ _ Hr) as (Hlen & _ & Hex).
  split; [exact Hlen|]. apply Hex. reflexivity.
Defined.

(** X4. Calls counted: after any run on a fresh pool, [ReadsCount],
    [WritesCount] and [TruncatesCount] are the numbers of [ReadAt],
    [WriteAt] and [Truncate] calls the run made, those that failed included,
    and [ReadsSizeBytes] is the sum of the byte counts the reads returned;
    no method moves a counter that is not its own.  The equalities are
    those of [uint64]: the three counts are exact for a run of fewer than
    [2 ^ 64] calls, the byte total when it is below [2 ^ 64]. *)
Theorem X4_calls_counted {B F : Type} `{!InnerFilePool B F}
  (b : B) l (w : world B F) rs :
  run l (newWorld b) = Some (w, rs) →
  ReadsCount (stats (fp w)) = uint64 (tally was_read rs) ∧
  WritesCount (stats (fp w)) = uint64 (tally was_write rs) ∧
  TruncatesCount (stats (fp w)) = uint64 (tally was_truncate rs) ∧
  ReadsSizeBytes (stats (fp w)) = uint64 (tally read_bytes rs) ∧
  (Z.of_nat (length rs) < 2 ^ 64 →
   ReadsCount (stats (fp w)) = tally was_read rs ∧
   WritesCount (stats (fp w)) = tally was_write rs ∧
   TruncatesCount (stats (fp w)) = tally was_truncate rs) ∧
  (is_uint64 (tally read_bytes rs) →
   ReadsSizeBytes (stats (fp w)) = tally read_bytes rs).
Proof.
  intros Hr.
  assert (ReadsCount (stats (fp w)) = uint64 (tally was_read rs)) as Hrc
    by (apply (run_tally ReadsCount was_read) with (l := l) (w := newWorld b);
        [counter_step | done | done]).
  assert (WritesCount (stats (fp w)) = uint64 (tally was_write rs)) as Hwc
    by (apply (run_tally WritesCount was_write) with (l := l) (w := newWorld b);
        [counter_step | done | done]).
  assert (TruncatesCount (stats (fp w)) = uint64 (tally was_truncate rs)) as Htc
    by (apply (run_tally TruncatesCount was_truncate) with (l := l) (w := newWorld b);
        [counter_step | done | done]).
  assert (ReadsSizeBytes (stats (fp w)) = uint64 (tally read_bytes rs)) as Hrb
    by (apply (run_tally ReadsSizeBytes read_bytes) with (l := l) (w := newWorld b);
        [counter_step | done | done]).
  assert (∀ g c, (∀ r, 0 <= g r <= 1) → Z.of_nat (length rs) < 2 ^ 64 →
                 c = uint64 (tally g rs) → c = tally g rs) as Hexact.
  { intros g c Hg Hlen ->. apply uint64_small.
    pose proof (tally_count_bounds g rs Hg). unfold is_uint64. lia. }
  split; [done|]. split; [done|]. split; [done|]. split; [done|]. split.
  - intros Hlen. split; [|split].
    + apply (Hexact was_read); [intros []; simpl; lia|done|done].
    + apply (Hexact was_write); [intros []; simpl; lia|done|done].
    + apply (Hexact was_truncate); [intros []; simpl; lia|done|done].
  - intros Hu. rewrite Hrb. by apply uint64_small.
Qed.

(** A read that returns one byte and an error, and a truncation that
    fails, are each counted once. *)
Lemma X4_calls_counted_witness :
  let w :=
    mkWorld ([] : list answer) (mkPool (mkUsage 1 1 0 1 1 0 0 1) 0 1)
      [mkFile (Some 8%nat) true 0] in
  let rs :=
    [RNewFile (Some 0%nat) None;
     RReadAt [x01; x00] 1 (Some "unexpected EOF"%string);
     RTruncate (Some "read-only"%string)] in
  run [OpNewFile; OpReadAt 0 [x00; x00] 0; OpTruncate 0 5]
      (newWorld [mkAnswer (Some 8%nat) [] 0 None;
                 mkAnswer None [x01; x00] 1 (Some "unexpected EOF"%string);
                 mkAnswer None [] 0 (Some "read-only"%string)])
    = Some (w, rs) ∧
  ReadsCount (stats (fp w)) = tally was_read rs ∧
  WritesCount (stats (fp w)) = tally was_write rs ∧
  TruncatesCount (stats (fp w)) = tally was_truncate rs ∧
  ReadsSizeBytes (stats (fp w)) = tally read_bytes rs.
Proof.
  intros w rs.
  assert (run [OpNewFile; OpReadAt 0 [x00; x00] 0; OpTruncate 0 5]
              (newWorld [mkAnswer (Some 8%nat) [] 0 None;
                         mkAnswer None [x01; x00] 1 (Some "unexpected EOF"%string);
                         mkAnswer None [] 0 (Some "read-only"%string)])
          = Some (w, rs)) as Hr by reflexivity.
  split; [exact Hr|].
  destruct (X4_calls_counted _ _ _ _ Hr) as (_ & _ & _ & _ & Hc & Hb).
  destruct Hc as (Hrc & Hwc & Htc); [reflexivity|].
  split; [exact Hrc|]. split; [exact Hwc|]. split; [exact Htc|].
  apply Hb. split; [discriminate | reflexivity].
Defined.

(** ** Where the peaks come from *)

Section Peaks.
Context {B F : Type} `{!InnerFilePool B F}.

(** A quantity that each step either keeps or sets to the current value of
    another one is, after a run, what it was or a value the other one had
    after some part of the run. *)
Lemma run_attained (pk tot : world B F → Z) :
  (∀ o w w' r, step o w = Some (w', r) → pk w' = pk w ∨ pk w' = tot w') →
  ∀ l w w' rs,
    run l w = Some (w', rs) →
    pk w' = pk w ∨
    ∃ l1 l2 w1 rs1, l = l1 ++ l2 ∧ run l1 w = Some (w1, rs1) ∧ tot w1 = pk w'.
Proof.
  intros Hstep l. induction l as [|o l IH]; intros w w' rs Hr.
  - simpl in Hr. simplify_eq. by left.
  - apply run_cons_inv in Hr as (w1 & r & rs' & Hs & Hr & ->).
    destruct (IH _ _ _ Hr) as [Heq|(l1 & l2 & w2 & rs2 & -> & Hr1 & Ht)].
    + destruct (Hstep _ _ _ _ Hs) as [Hk|Hk].
      * left. congruence.
      * right. exists [o], l, w1, [r]. split; [done|]. split; [|congruence].
        exact (run_cons o [] w w1 w1 r [] Hs eq_refl).
    + right. exists (o :: l1), l2, w2, (r :: rs2). split; [done|]. split; [|done].
      exact (run_cons _ _ _ _ _ _ _ Hs Hr1).
Qed.

Lemma step_peak_sources o (w w' : world B F) r :
  step o w = Some (w', r) →
  (FilesCountPeak (stats (fp w')) = FilesCountPeak (stats (fp w)) ∨
   FilesCountPeak (stats (fp w')) = totalFiles (fp w')) ∧
  (FilesSizeBytesPeak (stats (fp w')) = FilesSizeBytesPeak (stats (fp w)) ∨
   FilesSizeBytesPeak (stats (fp w')) = totalSize (fp w')).
Proof.
  intros Hs. step_cases Hs; simpl; split; try (by left).
  all: ltb_cases; auto.
Qed.

End Peaks.

(** X5. Peaks are values that occurred: after any run on a fresh pool,
    [FilesCountPeak] is the value [totalFiles] had after some initial part
    of the run and [FilesSizeBytesPeak] is the value [totalSize] had after
    some initial part of the run (the empty one included), so that a
    recorded peak never overstates what the live counters reached. *)
Theorem X5_peaks_are_attained {B F : Type} `{!InnerFilePool B F}
  (b : B) l (w : world B F) rs :
  run l (newWorld b) = Some (w, rs) →
  (∃ l1 l2 w1 rs1,
      l = l1 ++ l2 ∧ run l1 (newWorld b) = Some (w1, rs1) ∧
      totalFiles (fp w1) = FilesCountPeak (stats (fp w))) ∧
  (∃ l1 l2 w1 rs1,
      l = l1 ++ l2 ∧ run l1 (newWorld b) = Some (w1, rs1) ∧
      totalSize (fp w1) = FilesSizeBytesPeak (stats (fp w))).
Proof.
  intros Hr. split.
  - destruct (run_attained (λ w, FilesCountPeak (stats (fp w)))
                (λ w, totalFiles (fp w))
                (λ o w w' r Hs, proj1 (step_peak_sources o w w' r Hs))
                _ _ _ _ Hr) as [Heq|Hex]; [|done].
    exists [], l, (newWorld b), []. by rewrite Heq.
  - destruct (run_attained (λ w, FilesSizeBytesPeak (stats (fp w)))
                (λ w, totalSize (fp w))
                (λ o w w' r Hs, proj2 (step_peak_sources o w w' r Hs))
                _ _ _ _ Hr) as [Heq|Hex]; [|done].
    exists [], l, (newWorld b), []. by rewrite Heq.
Qed.

(** A file truncated to 7 and then to 3: the size peak of 7 is the live
    total after some initial part of the run. *)
Lemma X5_peaks_are_attained_witness :
  let w :=
    mkWorld 1%nat (mkPool (mkUsage 1 1 7 0 0 0 0 2) 3 1)
      [mkFile (Some 0%nat) true 3] in
  run [OpNewFile; OpTruncate 0 7; OpTruncate 0 3] (newWorld 0%nat)
    = Some (w, [RNewFile (Some 0%nat) None; RTruncate None; RTruncate None]) ∧
  ∃ l1 l2 w1 rs1,
    [OpNewFile; OpTruncate 0 7; OpTruncate 0 3] = l1 ++ l2 ∧
    run l1 (newWorld 0%nat) = Some (w1, rs1) ∧
    totalSize (fp w1) = 7.
Proof.
  intros w.
  assert (run [OpNewFile; OpTruncate 0 7; OpTruncate 0 3] (newWorld 0%nat)
          = Some (w, [RNewFile (Some 0%nat) None; RTruncate None; RTruncate None]))
    as Hr by reflexivity.
  split; [exact Hr|].
  exact (proj2 (X5_peaks_are_attained _ _ _ _ Hr)).
Defined.

(** X6. Never more open than created: after any run on a fresh pool that
    has handed out fewer than [2 ^ 64] handles, [FilesCreated] is the number
    of handles handed out, and neither the live count [totalFiles] nor its
    peak [FilesCountPeak] exceeds it. *)
Theorem X6_peak_count_at_most_created {B F : Type} `{!InnerFilePool B F}
  (b : B) l (w : world B F) rs :
  run l (newWorld b) = Some (w, rs) →
  Z.of_nat (length (files w)) < 2 ^ 64 →
  FilesCreated (stats (fp w)) = Z.of_nat (length (files w)) ∧
  totalFiles (fp w) <= FilesCreated (stats (fp w)) ∧
  FilesCountPeak (stats (fp w)) <= FilesCreated (stats (fp w)).
Proof.
  intros Hr Hlen.
  assert (∀ l1 (w1 : world B F) rs1,
             run l1 (newWorld b) = Some (w1, rs1) →
             Z.of_nat (length (files w1)) < 2 ^ 64 →
             totalFiles (fp w1) <= Z.of_nat (length (files w1))) as Hlive.
  { intros l1 w1 rs1 Hr1 Hlen1.
    destruct (run_counters_modular _ _ _ _ Hr1 (newWorld_counters_modular b))
      as [-> _].
    pose proof (liveFiles_le_length w1).
    rewrite uint64_small; unfold is_uint64; lia. }
  assert (FilesCreated (stats (fp w)) = Z.of_nat (length (files w))) as ->.
  { pose proof (run_length _ _ _ _ Hr) as Hl.
    change (Z.of_nat (length (files (newWorld (F:=F) b)))) with 0 in Hl.
    pose proof (run_tally FilesCreated created ltac:(counter_step)
                  _ _ _ _ Hr ltac:(done)) as Hc.
    change (FilesCreated (stats (fp (newWorld (F:=F) b)))) with 0 in Hc.
    rewrite Hc, <- Hl. apply uint64_small. unfold is_uint64. lia. }
  split; [done|]. split; [by eapply Hlive|].
  assert (∃ l1 l2 w1 rs1,
             l = l1 ++ l2 ∧ run l1 (newWorld b) = Some (w1, rs1) ∧
             totalFiles (fp w1) = FilesCountPeak (stats (fp w)))
    as (l1 & l2 & w1 & rs1 & -> & Hr1 & <-).
  { destruct (run_attained (λ w, FilesCountPeak (stats (fp w)))
                (λ w, totalFiles (fp w))
                (λ o w w' r Hs, proj1 (step_peak_sources o w w' r Hs))
                _ _ _ _ Hr) as [Heq|Hex]; [|done].
    exists [], l, (newWorld b), []. by rewrite Heq. }
  destruct (run_app_inv _ _ _ _ _ _ _ Hr Hr1) as [rs2 Hr2].
  pose proof (run_length _ _ _ _ Hr2) as Hl2.
  assert (0 <= tally created rs2) as Hpos.
  { apply (tally_count_bounds created rs2). intros [[?|] ?| | | |]; simpl; lia. }
  pose proof (Hlive _ _ _ Hr1). lia.
Qed.

(** Three files created and one closed in between: three created, two
    open at the end and never more than two at once. *)
Lemma X6_peak_count_at_most_created_witness :
  let w :=
    mkWorld 3%nat (mkPool (mkUsage 3 2 0 0 0 0 0 0) 0 2)
      [mkFile None false 0; mkFile (Some 1%nat) true 0; mkFile (Some 2%nat) true 0] in
  run [OpNewFile; OpNewFile; OpClose 0; OpNewFile] (newWorld 0%nat)
    = Some (w, [RNewFile (Some 0%nat) None; RNewFile (Some 1%nat) None;
                RClose None; RNewFile (Some 2%nat) None]) ∧
  FilesCreated (stats (fp w)) = Z.of_nat (length (files w)) ∧
  totalFiles (fp w) <= FilesCreated (stats (fp w)) ∧
  FilesCountPeak (stats (fp w)) <= FilesCreated (stats (fp w)).
Proof.
  intros w.
  assert (run [OpNewFile; OpNewFile; OpClose 0; OpNewFile] (newWorld 0%nat)
          = Some (w, [RNewFile (Some 0%nat) None; RNewFile (Some 1%nat) None;
                      RClose None; RNewFile (Some 2%nat) None]))
    as Hr by reflexivity.
  split; [exact Hr|].
  apply (X6_peak_count_at_most_created _ _ _ _ Hr). reflexivity.
Defined.

(** ** Sizes between truncations, and handles without inner handle *)

Section Persistence.
Context {B F : Type} `{!InnerFilePool B F}.

(** A handle of the heap is still there after a step. *)
Lemma step_keeps_handles o (w w' : world B F) r h f :
  step o w = Some (w', r) → files w !! h = Some f →
  ∃ f', files w' !! h = Some f'.
Proof.
  intros Hs Hf.
  assert (h < length (files w'))%nat as Hlt.
  { pose proof (proj2 (step_frame _ _ _ _ Hs)) as Hlen.
    apply lookup_lt_Some in Hf.
    assert (0 <= created r) by (destruct r as [[?|] ?| | | |]; simpl; lia).
    lia. }
  by apply lookup_lt_is_Some_2.
Qed.

End Persistence.

(** X8. Sizes between truncations: over any run that makes no [Truncate]
    call on handle [h], the handle is still on the heap at the end and its
    size is at least what it was at the start, whatever is created, read,
    written or closed in between (closing [h] itself keeps its size). *)
Theorem X8_size_grows_between_truncations {B F : Type} `{!InnerFilePool B F}
  l (w w' : world B F) rs h f :
  run l w = Some (w', rs) →
  Forall (λ o, ∀ length, o ≠ OpTruncate h length) l →
  files w !! h = Some f →
  ∃ f', files w' !! h = Some f' ∧ size f <= size f'.
Proof.
  revert w rs f. induction l as [|o l IH]; intros w rs f Hr Hl Hf.
  - simpl in Hr. simplify_eq. exists f. split; [done|lia].
  - apply run_cons_inv in Hr as (w1 & r & rs' & Hs & Hr & ->).
    apply Forall_cons in Hl as [Ho Hl].
    destruct (step_keeps_handles _ _ _ _ _ _ Hs Hf) as [f1 Hf1].
    assert (size f <= size f1) as Hle.
    { destruct (Z.le_gt_cases (size f) (size f1)) as [|Hgt]; [done|].
      destruct (step_size_decrease _ _ _ _ _ _ _ Hs Hf Hf1) as [len ->]; [lia|].
      by destruct (Ho len). }
    destruct (IH _ _ _ Hr Hl Hf1) as (f' & Hf' & Hle').
    exists f'. split; [done|lia].
Qed.

(** A write inside the first 40 bytes, a write past them and a close: the
    handle that had size 40 ends with size 45. *)
Lemma X8_size_grows_between_truncations_witness :
  let w' :=
    mkWorld ([] : list answer) (mkPool (mkUsage 1 1 45 0 0 3 45 0) 0 0)
      [mkFile None false 45] in
  run [OpWriteAt 0 [x01; x02] 10; OpWriteAt 0 [x01; x02; x03] 42; OpClose 0]
      (one_open [mkAnswer None [] 2 None; mkAnswer None [] 3 None;
                 mkAnswer None [] 0 None])
    = Some (w', [RWriteAt 2 None; RWriteAt 3 None; RClose None]) ∧
  ∃ f', files w' !! 0%nat = Some f' ∧ 40 <= size f'.
Proof.
  intros w'.
  assert (run [OpWriteAt 0 [x01; x02] 10; OpWriteAt 0 [x01; x02; x03] 42; OpClose 0]
              (one_open [mkAnswer None [] 2 None; mkAnswer None [] 3 None;
                         mkAnswer None [] 0 None])
          = Some (w', [RWriteAt 2 None; RWriteAt 3 None; RClose None]))
    as Hr by reflexivity.
  split; [exact Hr|].
  apply (X8_size_grows_between_truncations _ _ _ _ 0%nat
           (mkFile (Some 7%nat) true 40) Hr); [|reflexivity].
  repeat constructor; discriminate.
Defined.

(** X9. A creation that returns neither handle nor error: [NewFile] does
    not look at the handle the wrapped pool returns, so when that pool
    answers with a nil handle and a nil error the file is still counted in
    [FilesCreated] and [totalFiles] and a handle is returned; every method
    on that handle panics, in the state after the creation and after any
    later run, so the handle can never be closed and stays counted as
    live. *)
Theorem X9_nil_handle_is_counted_and_unusable {B F : Type} `{!InnerFilePool B F}
  (w : world B F) b :
  inner_NewFile (base w) = (b, (None, None)) →
  ∃ w',
    NewFile w = Some (w', (Some (length (files w)), None)) ∧
    FilesCreated (stats (fp w')) = incr64 (FilesCreated (stats (fp w))) ∧
    totalFiles (fp w') = incr64 (totalFiles (fp w)) ∧
    ∀ l w'' rs,
      run l w' = Some (w'', rs) →
      files w'' !! length (files w) = Some (mkFile None true 0) ∧
      (∀ p off, ReadAt (length (files w)) p off w'' = None) ∧
      (∀ p off, WriteAt (length (files w)) p off w'' = None) ∧
      (∀ len, Truncate (length (files w)) len w'' = None) ∧
      Close (length (files w)) w'' = None.
Proof.
  intros Hin. unfold NewFile. rewrite Hin. eexists.
  split; [reflexivity|]. simpl. split; [reflexivity|]. split; [reflexivity|].
  intros l w'' rs Hr.
  assert (files
            (mkWorld b
               (mkPool
                  (mkUsage (incr64 (FilesCreated (stats (fp w))))
                     (if FilesCountPeak (stats (fp w)) <? incr64 (totalFiles (fp w))
                      then incr64 (totalFiles (fp w))
                      else FilesCountPeak (stats (fp w)))
                     (FilesSizeBytesPeak (stats (fp w))) (ReadsCount (stats (fp w)))
                     (ReadsSizeBytes (stats (fp w))) (WritesCount (stats (fp w)))
                     (WritesSizeBytes (stats (fp w))) (TruncatesCount (stats (fp w))))
                  (totalSize (fp w)) (incr64 (totalFiles (fp w))))
               (files w ++ [mkFile None true 0])) !! length (files w)
          = Some (mkFile (F:=F) None true 0)) as Hf.
  { simpl. by rewrite lookup_app_r, Nat.sub_diag. }
  pose proof (run_not_on_closed _ _ _ _ _ _ Hr Hf eq_refl) as Hl.
  pose proof (run_frame _ _ _ _ _ _ Hr Hl Hf) as Hf2.
  split; [done|]. by apply (methods_on_closed w'' _ _ Hf2).
Qed.

(** On a fresh scripted pool whose first answer is a nil handle without
    error, the file counts and a close of the handle panics. *)
Lemma X9_nil_handle_is_counted_and_unusable_witness :
  inner_NewFile (base (newWorld (F:=nat) [mkAnswer None [] 0 None]))
    = ([], (None, None)) ∧
  ∃ w',
    NewFile (newWorld (F:=nat) [mkAnswer None [] 0 None])
      = Some (w', (Some 0%nat, None)) ∧
    totalFiles (fp w') = 1 ∧
    Close 0 w' = None.
Proof.
  assert (inner_NewFile (base (newWorld (F:=nat) [mkAnswer None [] 0 None]))
          = ([], (None, None))) as Hin by reflexivity.
  split; [exact Hin|].
  destruct (X9_nil_handle_is_counted_and_unusable _ _ Hin)
    as (w' & Hn & _ & Ht & Hlater).
  exists w'. split; [exact Hn|]. split; [exact Ht|].
  exact (proj2 (proj2 (proj2 (proj2 (Hlater [] w' [] eq_refl))))).
Defined.
